(** * Design-Pattern-TS: a shallow embedding of the pattern examples

    Each TypeScript example is embedded in a module of its own, named after
    the pattern.  Objects with identity are references into an explicit
    store, methods that mutate [this] are state-passing functions, and the
    calls an object makes on its collaborators are recorded in a trace.

    TypeScript's [number] is an IEEE 754 binary64 number.  The Strategy
    example computes with such numbers, and is embedded over the binary64
    numbers [float] with their rounded operations.  The other examples pass
    numbers on as they are or add small integer constants, and take the
    exact rationals [Q] as [number]. *)

From Stdlib Require Import QArith Lqa Ascii Floats.
From stdpp Require Import base tactics option list strings pretty.

Open Scope Z_scope.
Open Scope list_scope.

Definition number : Type := Q.
Bind Scope Q_scope with number.

(** The sum of a list of numbers. *)
Definition sum (l : list number) : number := foldr Qplus 0%Q l.

(** Object identity: a reference is the address of an object; [===] and
    [!==] on objects compare addresses. *)
Abbreviation Ref := nat.

(* ===================================================================== *)
(** ** Observer *)
(* ===================================================================== *)

Module Observer.

Record WeatherData := mkWeatherData {
  temperature : number;
  humidity : number
}.

(** One invocation [observer.update(data)]. *)
Inductive Call := Update (observer : Ref) (data : WeatherData).

Definition receiver (c : Call) : Ref := let 'Update o _ := c in o.
Definition payload (c : Call) : WeatherData := let 'Update _ d := c in d.

(** [class WeatherStation]: the two private fields. *)
Record WeatherStation := mkWeatherStation {
  observers : list Ref;
  data : WeatherData
}.

(** The station together with the calls it has made so far. *)
Record World := mkWorld {
  station : WeatherStation;
  calls : list Call
}.

(** [new WeatherStation()] *)
Definition newWeatherStation : WeatherStation :=
  {| observers := []; data := {| temperature := 0%Q; humidity := 0%Q |} |}.

Definition boot : World := {| station := newWeatherStation; calls := [] |}.

(** [this.observers.push(observer)] *)
Definition subscribe (observer : Ref) (w : World) : World :=
  {| station := {| observers := observers (station w) ++ [observer];
                   data := data (station w) |};
     calls := calls w |}.

(** [this.observers = this.observers.filter((obs) => obs !== observer)] *)
Definition unsubscribe (observer : Ref) (w : World) : World :=
  {| station := {| observers := filter (λ obs, obs ≠ observer)
                                       (observers (station w));
                   data := data (station w) |};
     calls := calls w |}.

(** [Array.prototype.forEach] over an array that the callback leaves
    alone: the callback runs once per element, from index 0 upwards. *)
Definition forEach {A S : Type} (f : A → S → S) (l : list A) (s : S) : S :=
  foldl (λ acc x, f x acc) s l.

(** [this.observers.forEach((observer) => observer.update(this.data))] *)
Definition notify (w : World) : World :=
  {| station := station w;
     calls := forEach (λ observer tr, tr ++ [Update observer (data (station w))])
                      (observers (station w)) (calls w) |}.

(** [this.data = data; this.notify()] *)
Definition setWeatherData (d : WeatherData) (w : World) : World :=
  notify {| station := {| observers := observers (station w); data := d |};
            calls := calls w |}.

(** The driver's subscription sequence, for any list of observers. *)
Definition subscribeAll (l : list Ref) (w : World) : World :=
  forEach subscribe l w.

(** The calls made by the step from [w] to [w']. *)
Definition emitted (w w' : World) : list Call :=
  drop (length (calls w)) (calls w').

(** How many of the calls [cs] go to [o]. *)
Definition notifications (o : Ref) (cs : list Call) : nat :=
  length (filter (λ c, receiver c = o) cs).

(** How many times [o] occurs in the subscriber list. *)
Definition subscriptions (o : Ref) (w : World) : nat :=
  length (filter (λ obs, obs = o) (observers (station w))).

(** The driver's station, its three displays at the addresses 1, 2 and 3,
    and its first reading. *)
Definition threeDisplays : World := subscribeAll [1; 2; 3]%nat boot.

Definition hot : WeatherData := {| temperature := 35%Q; humidity := 20%Q |}.

(** A series of [setWeatherData] calls, one per reading, in order, as the
    driver makes them. *)
Definition setAll (ds : list WeatherData) (w : World) : World :=
  forEach setWeatherData ds w.

End Observer.

(* ===================================================================== *)
(** ** Binary64 numbers *)
(* ===================================================================== *)

Module Binary64.

(** A number that is neither a zero nor a NaN, of the sign given
    ([true] for negative): a finite number other than zero, or an
    infinity. *)
Definition signed (sx : bool) (x : spec_float) : Prop :=
  match x with
  | S754_finite s _ _ => s = sx
  | S754_infinity s => s = sx
  | _ => False
  end.

End Binary64.

(* ===================================================================== *)
(** ** Strategy *)
(* ===================================================================== *)

Module Strategy.

(** [interface Strategy]: an object with the single method [doDiscount],
    from a binary64 number to a binary64 number. *)
Record Strategy := mkStrategy {
  doDiscount : float → float
}.

(** [return price - this.discountAmount] *)
Definition FlatDiscountStrategy (discountAmount : float) : Strategy :=
  {| doDiscount price := (price - discountAmount)%float |}.

(** [return price] *)
Definition NoDiscountStrategy : Strategy :=
  {| doDiscount price := price |}.

(** [return price * (1 - (this.discountRate / 100))] *)
Definition PercentageDiscountStrategy (discountRate : float) : Strategy :=
  {| doDiscount price := (price * (1 - discountRate / 100))%float |}.

Record Item := mkItem {
  name : string;
  price : float;
  quantity : float
}.

(** [class Cart]: its two fields; there is no other state. *)
Record Cart := mkCart {
  items : list Item;
  strategy : Strategy
}.

(** [new Cart(strategy)] *)
Definition newCart (s : Strategy) : Cart := {| items := []; strategy := s |}.

(** [this.items.push(item)] *)
Definition addItem (item : Item) (c : Cart) : Cart :=
  {| items := items c ++ [item]; strategy := strategy c |}.

(** [this.strategy = strategy] *)
Definition setDiscountStrategy (s : Strategy) (c : Cart) : Cart :=
  {| items := items c; strategy := s |}.

(** [let total = 0; this.items.forEach((item) => total += item.price * item.quantity)] *)
Definition subtotal (l : list Item) : float :=
  foldl (λ total item, (total + price item * quantity item)%float) 0%float l.

(** [return this.strategy.doDiscount(total)] *)
Definition getTotalPrice (c : Cart) : float :=
  doDiscount (strategy c) (subtotal (items c)).

(** One call made on a cart by its client. *)
Inductive CartCall :=
| AddItem (item : Item)
| SetDiscountStrategy (s : Strategy)
| GetTotalPrice.

(** A session with a cart: the cart, and the totals [getTotalPrice] has
    returned so far. *)
Definition cartCall (c : CartCall) (st : Cart * list float) : Cart * list float :=
  match c with
  | AddItem item => (addItem item st.1, st.2)
  | SetDiscountStrategy s => (setDiscountStrategy s st.1, st.2)
  | GetTotalPrice => (st.1, st.2 ++ [getTotalPrice st.1])
  end.

Definition session (cs : list CartCall) (st : Cart * list float) : Cart * list float :=
  foldl (λ acc c, cartCall c acc) st cs.

(** The items passed to [addItem] along a session, in call order. *)
Definition itemsAdded (cs : list CartCall) : list Item :=
  omap (λ c, match c with AddItem item => Some item | _ => None end) cs.

(** The driver's cart. *)
Definition driverCart : Cart :=
  addItem {| name := "Jeans"; price := 50%float; quantity := 1%float |}
    (addItem {| name := "Shirt"; price := 20%float; quantity := 2%float |}
       (newCart NoDiscountStrategy)).

End Strategy.

(* ===================================================================== *)
(** ** Decorator *)
(* ===================================================================== *)

Module Decorator.

(** The implementations of [interface Coffee]; a decorator holds the
    coffee it wraps in its field [coffee]. *)
Inductive Coffee :=
| PlainCoffee
| MilkDecorator (coffee : Coffee)
| SugarDecorator (coffee : Coffee)
| CaramelDecorator (coffee : Coffee).

Fixpoint getCost (c : Coffee) : number :=
  match c with
  | PlainCoffee => 100
  | MilkDecorator coffee => getCost coffee + 50
  | SugarDecorator coffee => getCost coffee + 20
  | CaramelDecorator coffee => getCost coffee + 100
  end%Q.

Fixpoint getDescription (c : Coffee) : string :=
  match c with
  | PlainCoffee => "Plain Coffee"
  | MilkDecorator coffee => getDescription coffee +:+ " Milk"
  | SugarDecorator coffee => getDescription coffee +:+ " Sugar"
  | CaramelDecorator coffee => getDescription coffee +:+ " Caramel"
  end.

(** The three concrete decorator classes, as layers of a chain. *)
Inductive Layer := Milk | Sugar | Caramel.

(** [new L(coffee)] for the decorator class of layer [L]. *)
Definition wrap (l : Layer) (coffee : Coffee) : Coffee :=
  match l with
  | Milk => MilkDecorator coffee
  | Sugar => SugarDecorator coffee
  | Caramel => CaramelDecorator coffee
  end.

(** Nest the layers around a coffee, the first of the list innermost. *)
Definition decorate (ls : list Layer) (coffee : Coffee) : Coffee :=
  foldl (λ c l, wrap l c) coffee ls.

(** The constant each layer adds in its [getCost]. *)
Definition increment (l : Layer) : number :=
  match l with Milk => 50 | Sugar => 20 | Caramel => 100 end%Q.

(** The constant each layer appends in its [getDescription]. *)
Definition suffix (l : Layer) : string :=
  match l with Milk => " Milk" | Sugar => " Sugar" | Caramel => " Caramel" end.

Definition concat (l : list string) : string := foldr String.append "" l.

(** The decorator classes nested around the plain coffee of a chain, the
    innermost first. *)
Fixpoint layers (c : Coffee) : list Layer :=
  match c with
  | PlainCoffee => []
  | MilkDecorator coffee => layers coffee ++ [Milk]
  | SugarDecorator coffee => layers coffee ++ [Sugar]
  | CaramelDecorator coffee => layers coffee ++ [Caramel]
  end.

End Decorator.

(* ===================================================================== *)
(** ** Factory *)
(* ===================================================================== *)

(** The console: the lines printed so far. *)
Definition Console : Type := list string.

Definition console_log (line : string) (out : Console) : Console := out ++ [line].

Module Factory.

(** The implementations of [interface Shape]. *)
Inductive Shape := Circle | Rectangle | Square.

Definition draw (s : Shape) (out : Console) : Console :=
  match s with
  | Circle => console_log "Drawing circle." out
  | Rectangle => console_log "Drawing rectangle." out
  | Square => console_log "Drawing square." out
  end.

(** [switch (type)] compares with [===], case by case, top to bottom. *)
Definition createShape (type : string) : Shape :=
  if decide (type = "Circle") then Circle
  else if decide (type = "Rectangle") then Rectangle
  else if decide (type = "Square") then Square
  else Circle.

End Factory.

(* ===================================================================== *)
(** ** Builder *)
(* ===================================================================== *)

Module Builder.

(** The store of [string[]] arrays.  A field of type [string[]] holds the
    address of an array, so two objects whose fields hold the same address
    share the array. *)
Abbreviation Arrays := (list (list string)).

Module Pizza.
(** [class Pizza]: four read-only fields set by the constructor. *)
Record Pizza := mkPizza {
  size : string;
  crust : string;
  toppings : Ref;
  sauce : string
}.
End Pizza.

(** [class CustomPizzaBuilder] *)
Record CustomPizzaBuilder := mkCustomPizzaBuilder {
  size : string;
  crust : string;
  toppings : Ref;
  sauce : string
}.

(** [new CustomPizzaBuilder()]: the field initialisers; [[]] allocates a
    fresh array. *)
Definition newCustomPizzaBuilder (h : Arrays) : CustomPizzaBuilder * Arrays :=
  ({| size := "regular"; crust := "thin"; toppings := length h; sauce := "tomato" |},
   h ++ [[]]).

(** [this.size = size; return this] *)
Definition setSize (s : string) (b : CustomPizzaBuilder) : CustomPizzaBuilder :=
  {| size := s; crust := crust b; toppings := toppings b; sauce := sauce b |}.

(** [this.crust = crust; return this] *)
Definition setCrust (c : string) (b : CustomPizzaBuilder) : CustomPizzaBuilder :=
  {| size := size b; crust := c; toppings := toppings b; sauce := sauce b |}.

(** [this.toppings.push(topping); return this]: the builder keeps the
    address it holds, the array at that address grows. *)
Definition addTopping (t : string) (b : CustomPizzaBuilder) (h : Arrays) : Arrays :=
  alter (λ a, a ++ [t]) (toppings b) h.

(** [this.sauce = sauce; return this] *)
Definition setSauce (s : string) (b : CustomPizzaBuilder) : CustomPizzaBuilder :=
  {| size := size b; crust := crust b; toppings := toppings b; sauce := s |}.

(** [return new Pizza(this.size, this.crust, this.toppings, this.sauce)] *)
Definition build (b : CustomPizzaBuilder) : Pizza.Pizza :=
  {| Pizza.size := size b; Pizza.crust := crust b;
     Pizza.toppings := toppings b; Pizza.sauce := sauce b |}.

(** Reading [pizza.toppings]: the array at the address the pizza holds. *)
Definition toppingsOf (p : Pizza.Pizza) (h : Arrays) : option (list string) :=
  h !! Pizza.toppings p.

(** One call of the fluent interface [PizzaBuilder]. *)
Inductive Setter :=
| SetSize (size : string)
| SetCrust (crust : string)
| AddTopping (topping : string)
| SetSauce (sauce : string).

Global Instance Setter_eq_dec : EqDecision Setter.
Proof. solve_decision. Defined.

Definition call (c : Setter) (st : CustomPizzaBuilder * Arrays)
  : CustomPizzaBuilder * Arrays :=
  match c with
  | SetSize s => (setSize s st.1, st.2)
  | SetCrust c => (setCrust c st.1, st.2)
  | AddTopping t => (st.1, addTopping t st.1 st.2)
  | SetSauce s => (setSauce s st.1, st.2)
  end.

(** A chain [builder.c1(..).c2(..)...]: every call returns [this], so the
    calls run on the same builder, left to right. *)
Definition chain (cs : list Setter) (st : CustomPizzaBuilder * Arrays)
  : CustomPizzaBuilder * Arrays :=
  foldl (λ acc c, call c acc) st cs.

(** The toppings passed to [addTopping] along a chain, in call order. *)
Definition added (cs : list Setter) : list string :=
  omap (λ c, match c with AddTopping t => Some t | _ => None end) cs.

(** The driver's chain. *)
Definition driverCalls : list Setter :=
  [SetSize "Large"; SetCrust "Thin"; AddTopping "Cheese";
   AddTopping "Pepperoni"; SetSauce "Spicy"].

(** The driver's calls with the two [addTopping] calls made first and in
    the other order. *)
Definition swappedCalls : list Setter :=
  [AddTopping "Pepperoni"; AddTopping "Cheese"; SetSize "Large";
   SetCrust "Thin"; SetSauce "Spicy"].

(** The arguments of the [setSize], [setCrust] and [setSauce] calls of a
    chain, in call order. *)
Definition sizesSet (cs : list Setter) : list string :=
  omap (λ c, match c with SetSize s => Some s | _ => None end) cs.

Definition crustsSet (cs : list Setter) : list string :=
  omap (λ c, match c with SetCrust s => Some s | _ => None end) cs.

Definition saucesSet (cs : list Setter) : list string :=
  omap (λ c, match c with SetSauce s => Some s | _ => None end) cs.

(** [class PizzaDirector]: the field initialiser makes the director's
    builder once, when the director is constructed. *)
Record PizzaDirector := mkPizzaDirector {
  pizzaBuilder : CustomPizzaBuilder
}.

(** [new PizzaDirector()] *)
Definition newPizzaDirector (h : Arrays) : PizzaDirector * Arrays :=
  ({| pizzaBuilder := (newCustomPizzaBuilder h).1 |}, (newCustomPizzaBuilder h).2).

(** The chain of [createMargherita]. *)
Definition margheritaCalls : list Setter :=
  [SetCrust "Thin"; SetSauce "Marinara"; AddTopping "Cheese";
   AddTopping "Basil"; SetSize "Large"].

(** [return this.pizzaBuilder.setCrust("Thin")...build()]: the calls run
    on the director's own builder, which keeps what they set. *)
Definition createMargherita (d : PizzaDirector) (h : Arrays)
  : Pizza.Pizza * (PizzaDirector * Arrays) :=
  let st := chain margheritaCalls (pizzaBuilder d, h) in
  (build st.1, ({| pizzaBuilder := st.1 |}, st.2)).

(** [n] calls of [createMargherita] on the same director; the pizzas are
    listed in the order they were made. *)
Fixpoint createMargheritas (n : nat) (d : PizzaDirector) (h : Arrays)
  : list Pizza.Pizza * (PizzaDirector * Arrays) :=
  match n with
  | O => ([], (d, h))
  | S m =>
      let '(p, (d1, h1)) := createMargherita d h in
      let '(ps, dh) := createMargheritas m d1 h1 in
      (p :: ps, dh)
  end.

End Builder.

(* ===================================================================== *)
(** ** Singleton *)
(* ===================================================================== *)

Module Singleton.

Record DatabaseConnection := mkDatabaseConnection {
  id : string
}.

(** The process: the two static fields of the class, the objects
    constructed so far (an object's address is its index), the console. *)
Record World := mkWorld {
  instance : option Ref;
  lock : bool;
  heap : list DatabaseConnection;
  out : Console
}.

(** Process start: [instance = null], [lock = false], nothing constructed. *)
Definition boot : World :=
  {| instance := None; lock := false; heap := []; out := [] |}.

(** [new DatabaseConnection()] when the clock reads [now]:
    [this.id = Date.now().toString()]. *)
Definition construct (now : Z) (w : World) : Ref * World :=
  (length (heap w),
   {| instance := instance w; lock := lock w;
      heap := heap w ++ [{| id := pretty now |}]; out := out w |}).

(** [DatabaseConnection.getInstance()], called when the clock reads [now].
    The result is [None] when the method returns [null]. *)
Definition getInstance (now : Z) (w : World) : option Ref * World :=
  let w' :=
    match instance w with
    | None =>
        if negb (lock w) then
          let locked := {| instance := instance w; lock := true;
                           heap := heap w; out := out w |} in
          let '(r, made) := construct now locked in
          {| instance := Some r; lock := lock made;
             heap := heap made; out := out made |}
        else w
    | Some _ => w
    end in
  (instance w', w').

(** [db.connect()]; [None] is the TypeError of a call on [null]. *)
Definition connect (db : option Ref) (w : World) : option World :=
  r ← db;
  o ← heap w !! r;
  Some {| instance := instance w; lock := lock w; heap := heap w;
          out := console_log ("Connected to database with ID: " +:+ id o) (out w) |}.

(** A run of [getInstance] calls, one per clock reading. *)
Fixpoint getInstances (nows : list Z) (w : World) : list (option Ref) * World :=
  match nows with
  | [] => ([], w)
  | now :: rest =>
      let '(r, w1) := getInstance now w in
      let '(rs, w2) := getInstances rest w1 in
      (r :: rs, w2)
  end.

End Singleton.

(* ===================================================================== *)
(** ** Abstract factory *)
(* ===================================================================== *)

Module AbstractFactory.

(** The implementations of [interface Button]. *)
Inductive Button := DarkButton | LightButton | HighContrastButton.

(** The implementations of [interface TextInput]. *)
Inductive TextInput := DarkTextInput | LightTextInput | HighContrastTextInput.

(** [Button.render()] *)
Definition renderButton (b : Button) (out : Console) : Console :=
  match b with
  | DarkButton => console_log "Render Dark button" out
  | LightButton => console_log "Render Light button" out
  | HighContrastButton => console_log "Render High Contrast button" out
  end.

(** [TextInput.render()] *)
Definition renderTextInput (t : TextInput) (out : Console) : Console :=
  match t with
  | DarkTextInput => console_log "Render Dark text input" out
  | LightTextInput => console_log "Render Light text input" out
  | HighContrastTextInput => console_log "Render High Contrast text input" out
  end.

(** The implementations of [interface UIFactory]. *)
Inductive UIFactory := DarkThemeFactory | LightThemeFactory | HighContrastFactory.

Definition createButton (f : UIFactory) : Button :=
  match f with
  | DarkThemeFactory => DarkButton
  | LightThemeFactory => LightButton
  | HighContrastFactory => HighContrastButton
  end.

Definition createTextInput (f : UIFactory) : TextInput :=
  match f with
  | DarkThemeFactory => DarkTextInput
  | LightThemeFactory => LightTextInput
  | HighContrastFactory => HighContrastTextInput
  end.

(** [class Application] *)
Record Application := mkApplication {
  factory : UIFactory
}.

(** [this.factory.createButton().render();
     this.factory.createTextInput().render()] *)
Definition render (app : Application) (out : Console) : Console :=
  renderTextInput (createTextInput (factory app))
    (renderButton (createButton (factory app)) out).

(** The theme a product line names in what it prints. *)
Definition theme (f : UIFactory) : string :=
  match f with
  | DarkThemeFactory => "Dark"
  | LightThemeFactory => "Light"
  | HighContrastFactory => "High Contrast"
  end.

End AbstractFactory.

(* ===================================================================== *)
(** ** Adapter *)
(* ===================================================================== *)

Module Adapter.

Section Runtime.

(** The conversion of a number to a string that a template literal
    applies: part of the JavaScript runtime, not of this repository. *)
Variable toString : number → string.

(** [class LegacyPaymentGateway]: an object without fields. *)
Inductive LegacyPaymentGateway : Set := newLegacyPaymentGateway.

Definition makePayment (g : LegacyPaymentGateway) (amount : number) (out : Console)
  : Console :=
  console_log ("Processing Legacy payment : " +:+ toString amount) out.

Definition cancelPayment (g : LegacyPaymentGateway) (amount : number) (out : Console)
  : Console :=
  console_log ("Refunding Legacy payment : " +:+ toString amount) out.

(** [class ModernPaymentGateway]: an object without fields. *)
Inductive ModernPaymentGateway : Set := newModernPaymentGateway.

Definition pay (g : ModernPaymentGateway) (amount : number) (out : Console)
  : Console :=
  console_log ("Processing Modern payment : " +:+ toString amount) out.

Definition reverse (g : ModernPaymentGateway) (amount : number) (out : Console)
  : Console :=
  console_log ("Processing Modern payment : " +:+ toString amount) out.

(** The implementations of [interface PaymentProcessor], each holding the
    gateway it adapts. *)
Inductive PaymentProcessor :=
| LegacyPaymentAdapter (legacyPaymentGateway : LegacyPaymentGateway)
| ModernPaymentAdapter (modernPaymentGateway : ModernPaymentGateway).

Definition processPayment (p : PaymentProcessor) (amount : number) (out : Console)
  : Console :=
  match p with
  | LegacyPaymentAdapter g => makePayment g amount out
  | ModernPaymentAdapter g => pay g amount out
  end.

Definition refundPayment (p : PaymentProcessor) (amount : number) (out : Console)
  : Console :=
  match p with
  | LegacyPaymentAdapter g => cancelPayment g amount out
  | ModernPaymentAdapter g => reverse g amount out
  end.

(** One call a client makes through the interface. *)
Inductive Payment :=
| ProcessPayment (amount : number)
| RefundPayment (amount : number).

Definition amountOf (c : Payment) : number :=
  match c with ProcessPayment a => a | RefundPayment a => a end.

Definition perform (p : PaymentProcessor) (c : Payment) (out : Console) : Console :=
  match c with
  | ProcessPayment a => processPayment p a out
  | RefundPayment a => refundPayment p a out
  end.

(** A series of calls on one processor. *)
Definition performAll (p : PaymentProcessor) (cs : list Payment) (out : Console)
  : Console :=
  foldl (λ acc c, perform p c acc) out cs.

End Runtime.

End Adapter.

(* ===================================================================== *)
(** ** Facade *)
(* ===================================================================== *)

Module Facade.

(** The three subsystem classes have no fields; a method that takes a
    number prints it with the runtime's conversion [toString]. *)
Module Lights.
Inductive Lights : Set := new.
Definition turnOn (l : Lights) (out : Console) : Console :=
  console_log "Turning on Lights" out.
Definition turnOff (l : Lights) (out : Console) : Console :=
  console_log "Turning off Lights" out.
Definition dim (toString : number → string) (l : Lights) (level : number)
  (out : Console) : Console :=
  console_log ("Dim Lights to " +:+ toString level) out.
End Lights.

Module MusicSystem.
Inductive MusicSystem : Set := new.
Definition turnOn (m : MusicSystem) (out : Console) : Console :=
  console_log "Turning on Music System" out.
Definition turnOff (m : MusicSystem) (out : Console) : Console :=
  console_log "Turning off Music System" out.
Definition play (m : MusicSystem) (song : string) (out : Console) : Console :=
  console_log ("Playing : " +:+ song) out.
Definition setVolume (toString : number → string) (m : MusicSystem)
  (level : number) (out : Console) : Console :=
  console_log ("Setting volume to " +:+ toString level) out.
End MusicSystem.

Module AirConditioner.
Inductive AirConditioner : Set := new.
Definition turnOn (a : AirConditioner) (out : Console) : Console :=
  console_log "Turning on AC" out.
Definition turnOff (a : AirConditioner) (out : Console) : Console :=
  console_log "Turning off AC" out.
Definition setTemperature (toString : number → string) (a : AirConditioner)
  (level : number) (out : Console) : Console :=
  console_log ("Setting temperature to " +:+ toString level) out.
End AirConditioner.

(** [class HomeAutomationFacade] *)
Record HomeAutomationFacade : Set := mkHomeAutomationFacade {
  ac : AirConditioner.AirConditioner;
  musicSystem : MusicSystem.MusicSystem;
  lights : Lights.Lights
}.

Definition turnOn (f : HomeAutomationFacade) (out : Console) : Console :=
  Lights.turnOn (lights f)
    (MusicSystem.turnOn (musicSystem f)
       (AirConditioner.turnOn (ac f) out)).

Definition turnOff (f : HomeAutomationFacade) (out : Console) : Console :=
  Lights.turnOff (lights f)
    (MusicSystem.turnOff (musicSystem f)
       (AirConditioner.turnOff (ac f) out)).

Definition setMovieMode (toString : number → string) (f : HomeAutomationFacade)
  (out : Console) : Console :=
  MusicSystem.play (musicSystem f) "Relaxing song"
    (Lights.dim toString (lights f) 30
       (AirConditioner.setTemperature toString (ac f) 22 out)).

(** One call a client makes on the facade. *)
Inductive FacadeCall := TurnOn | TurnOff | SetMovieMode.

Definition perform (toString : number → string) (f : HomeAutomationFacade)
  (c : FacadeCall) (out : Console) : Console :=
  match c with
  | TurnOn => turnOn f out
  | TurnOff => turnOff f out
  | SetMovieMode => setMovieMode toString f out
  end.

(** A series of calls on one facade. *)
Definition performAll (toString : number → string) (f : HomeAutomationFacade)
  (cs : list FacadeCall) (out : Console) : Console :=
  foldl (λ acc c, perform toString f c acc) out cs.

(** Whether a line is one that [MusicSystem.setVolume] prints. *)
Definition volumeLine (line : string) : bool :=
  String.prefix "Setting volume to " line.

End Facade.

(* ===================================================================== *)
(** * Properties *)
(* ===================================================================== *)

(** ** Observer *)

Section ObserverFacts.
Import Observer.

Lemma forEach_emit {A B : Type} (f : A → B) (l : list A) (tr : list B) :
  forEach (λ x acc, acc ++ [f x]) l tr = tr ++ map f l.
Proof.
  unfold forEach. revert tr.
  induction l as [|x l IH]; intros tr; simpl.
  - by rewrite app_nil_r.
  - rewrite IH. by rewrite <- app_assoc.
Qed.

Lemma calls_setWeatherData (d : WeatherData) (w : World) :
  calls (setWeatherData d w)
  = calls w ++ map (λ o, Update o d) (observers (station w)).
Proof. unfold setWeatherData, notify; simpl. apply forEach_emit. Qed.

Lemma station_setWeatherData (d : WeatherData) (w : World) :
  station (setWeatherData d w)
  = {| observers := observers (station w); data := d |}.
Proof. reflexivity. Qed.

Lemma emitted_setWeatherData (d : WeatherData) (w : World) :
  emitted w (setWeatherData d w) = map (λ o, Update o d) (observers (station w)).
Proof.
  unfold emitted. rewrite calls_setWeatherData.
  by rewrite drop_app_length.
Qed.

Lemma observers_subscribeAll (l : list Ref) (w : World) :
  observers (station (subscribeAll l w)) = observers (station w) ++ l.
Proof.
  unfold subscribeAll, forEach. revert w.
  induction l as [|o l IH]; intros w; simpl.
  - by rewrite app_nil_r.
  - rewrite IH. simpl. by rewrite <- app_assoc.
Qed.

Lemma receiver_broadcast (d : WeatherData) (l : list Ref) :
  map receiver (map (λ o, Update o d) l) = l.
Proof. induction l as [|o l IH]; simpl; congruence. Qed.

Lemma payload_broadcast (d : WeatherData) (l : list Ref) :
  Forall (λ c, payload c = d) (map (λ o, Update o d) l).
Proof. induction l; simpl; constructor; auto. Qed.

Lemma notifications_broadcast (o : Ref) (d : WeatherData) (l : list Ref) :
  notifications o (map (λ x, Update x d) l) = length (filter (λ obs, obs = o) l).
Proof.
  unfold notifications.
  induction l as [|x l IH]; simpl; [done|].
  rewrite !filter_cons. simpl.
  destruct (decide (x = o)); simpl; congruence.
Qed.

Lemma filter_ne_count_same (o : Ref) (l : list Ref) :
  length (filter (λ obs, obs = o) (filter (λ obs, obs ≠ o) l)) = 0%nat.
Proof.
  induction l as [|x l IH]; simpl; [done|].
  rewrite (filter_cons (λ obs, obs ≠ o)).
  destruct (decide (x ≠ o)) as [Hne|_]; [|done].
  rewrite filter_cons. by destruct (decide (x = o)).
Qed.

Lemma filter_ne_count_other (o o' : Ref) (l : list Ref) :
  o' ≠ o →
  length (filter (λ obs, obs = o') (filter (λ obs, obs ≠ o) l))
  = length (filter (λ obs, obs = o') l).
Proof.
  intros Hne.
  induction l as [|x l IH]; simpl; [done|].
  rewrite (filter_cons (λ obs, obs ≠ o)), (filter_cons (λ obs, obs = o') x l).
  destruct (decide (x ≠ o)) as [Hx|Hx].
  - rewrite filter_cons. destruct (decide (x = o')); simpl; congruence.
  - destruct (decide (x = o')) as [->|]; [|done].
    exfalso. apply Hx. done.
Qed.

Lemma filter_ne_absent (o : Ref) (l : list Ref) :
  o ∉ l → filter (λ obs, obs ≠ o) l = l.
Proof.
  induction l as [|x l IH]; intros Hno; [done|].
  apply not_elem_of_cons in Hno as [Hx Hl].
  rewrite filter_cons_True by congruence.
  by rewrite IH.
Qed.

(** C1. Whatever the station has been through, after the observers of [l]
    subscribe one call of [setWeatherData d] makes exactly one [update] call
    per subscription, in the order in which the subscriptions were made, and
    every one of them passes the new reading [d], which is also the reading
    the station now holds. *)
Theorem setWeatherData_broadcast (w0 : World) (l : list Ref) (d : WeatherData) :
  let w := subscribeAll l w0 in
  let cs := emitted w (setWeatherData d w) in
  observers (station w) = observers (station w0) ++ l
  ∧ length cs = length (observers (station w))
  ∧ map receiver cs = observers (station w)
  ∧ Forall (λ c, payload c = d) cs
  ∧ cs = map (λ o, Update o d) (observers (station w))
  ∧ data (station (setWeatherData d w)) = d
  ∧ calls (setWeatherData d w) = calls w ++ cs.
Proof.
  intros w cs. subst cs.
  rewrite emitted_setWeatherData.
  split_and!.
  - apply observers_subscribeAll.
  - by rewrite length_map.
  - apply receiver_broadcast.
  - apply payload_broadcast.
  - done.
  - done.
  - apply calls_setWeatherData.
Qed.

(** On a fresh station the trace is the broadcast itself: [N] subscribers,
    [N] calls. *)
Corollary fresh_station_broadcast (l : list Ref) (d : WeatherData) :
  let w := subscribeAll l boot in
  calls (setWeatherData d w) = map (λ o, Update o d) l
  ∧ length (calls (setWeatherData d w)) = length l.
Proof.
  intros w. subst w.
  rewrite calls_setWeatherData, observers_subscribeAll.
  change (calls (subscribeAll l boot)) with (calls (forEach subscribe l boot)).
  assert (Hcalls : ∀ w, calls (forEach subscribe l w) = calls w).
  { unfold forEach. induction l as [|o l IH]; intros w; simpl; [done|].
    by rewrite IH. }
  rewrite Hcalls. simpl.
  split; [done|]. by rewrite length_map.
Qed.

(** C8. After [unsubscribe(o)] the next state change calls [update] on the
    subscribers other than [o], each as often as it is subscribed and in
    their order, with the new reading, and never on [o]; and when [o] is
    not subscribed [unsubscribe(o)] changes nothing. *)
Theorem unsubscribe_then_broadcast (w : World) (o : Ref) (d : WeatherData) :
  let w' := unsubscribe o w in
  let cs := emitted w' (setWeatherData d w') in
  map receiver cs = filter (λ obs, obs ≠ o) (observers (station w))
  ∧ (o ∉ map receiver cs)
  ∧ notifications o cs = 0%nat
  ∧ (∀ o', o' ≠ o → notifications o' cs = subscriptions o' w)
  ∧ (∀ o', o' ∈ observers (station w) → o' ≠ o → o' ∈ map receiver cs)
  ∧ Forall (λ c, payload c = d) cs
  ∧ (o ∉ (observers (station w)) → unsubscribe o w = w).
Proof.
  intros w' cs. subst cs.
  rewrite emitted_setWeatherData. subst w'. simpl.
  rewrite receiver_broadcast.
  split_and!.
  - done.
  - rewrite list_elem_of_filter. tauto.
  - rewrite notifications_broadcast. apply filter_ne_count_same.
  - intros o' Hne. rewrite notifications_broadcast.
    by apply filter_ne_count_other.
  - intros o' Hin Hne. by apply list_elem_of_filter.
  - apply payload_broadcast.
  - intros Hno. unfold unsubscribe. rewrite filter_ne_absent by done.
    by destruct w as [[obs dat] cs].
Qed.

(** C10. When [o] is subscribed more than once, one [unsubscribe(o)]
    removes all its subscriptions: before it a state change calls [o] once
    per subscription, after it not at all, which is not one call fewer. *)
Theorem unsubscribe_removes_all (w : World) (o : Ref) (d : WeatherData) :
  (2 ≤ subscriptions o w)%nat →
  let w' := unsubscribe o w in
  notifications o (emitted w (setWeatherData d w)) = subscriptions o w
  ∧ subscriptions o w' = 0%nat
  ∧ (o ∉ observers (station w'))
  ∧ notifications o (emitted w' (setWeatherData d w')) = 0%nat
  ∧ notifications o (emitted w' (setWeatherData d w'))
    ≠ (subscriptions o w - 1)%nat.
Proof.
  intros Htwice w'.
  rewrite !emitted_setWeatherData, !notifications_broadcast.
  subst w'. unfold subscriptions in *. simpl.
  rewrite filter_ne_count_same.
  split_and!; try done.
  - rewrite list_elem_of_filter. tauto.
  - lia.
Qed.

Lemma unsubscribe_then_broadcast_witness :
  map receiver (emitted (unsubscribe 2%nat threeDisplays)
                        (setWeatherData hot (unsubscribe 2%nat threeDisplays)))
  = [1; 3]%nat
  ∧ unsubscribe 7%nat threeDisplays = threeDisplays.
Proof.
  split.
  - exact (proj1 (unsubscribe_then_broadcast threeDisplays 2%nat hot)).
  - apply (unsubscribe_then_broadcast threeDisplays 7%nat hot).
    unfold threeDisplays. rewrite observers_subscribeAll. simpl.
    rewrite !not_elem_of_cons. split_and!; try lia.
    apply not_elem_of_nil.
Defined.

Lemma unsubscribe_removes_all_witness :
  let w := subscribeAll [7; 3; 7]%nat boot in
  (2 ≤ subscriptions 7%nat w)%nat
  ∧ subscriptions 7%nat (unsubscribe 7%nat w) = 0%nat
  ∧ observers (station (unsubscribe 7%nat w)) = [3]%nat.
Proof.
  intros w.
  assert (Htwice : (2 ≤ subscriptions 7%nat w)%nat) by (vm_compute; lia).
  split_and!.
  - exact Htwice.
  - apply (unsubscribe_removes_all w 7%nat hot Htwice).
  - reflexivity.
Defined.

End ObserverFacts.

(** ** Strategy *)

Section StrategyFacts.
Import Strategy.

Lemma session_snoc (cs : list CartCall) (c : CartCall) (st : Cart * list float) :
  session (cs ++ [c]) st = cartCall c (session cs st).
Proof. unfold session. by rewrite foldl_app. Qed.

(** Whatever a session does, the cart's items are those it had, followed by
    the items added. *)
Lemma items_session (cs : list CartCall) (st : Cart * list float) :
  items (session cs st).1 = items st.1 ++ itemsAdded cs.
Proof.
  induction cs as [|c cs IH] using rev_ind.
  - simpl. by rewrite app_nil_r.
  - rewrite session_snoc. unfold itemsAdded. rewrite omap_app.
    fold (itemsAdded cs).
    destruct c; simpl; rewrite IH, ?app_nil_r; [|done..].
    by rewrite <- app_assoc.
Qed.

(** C4. After [setDiscountStrategy(s)], [getTotalPrice] is [s.doDiscount]
    of the total the loop computes over the current items: the binary64 sum
    that starts at 0 and adds price times quantity item by item, in the
    order of the items.  The items are untouched by the swap, and the
    strategy held before it plays no part.  This holds after any history of
    calls on the cart, earlier swaps and earlier totals included: the total
    returned last depends on the history only through the items added. *)
Theorem setDiscountStrategy_getTotalPrice (c : Cart) (s : Strategy) :
  getTotalPrice (setDiscountStrategy s c) = doDiscount s (subtotal (items c))
  ∧ (subtotal [] = 0%float
     ∧ ∀ (l : list Item) (item : Item),
         subtotal (l ++ [item])
         = (subtotal l + price item * quantity item)%float)
  ∧ items (setDiscountStrategy s c) = items c
  ∧ strategy (setDiscountStrategy s c) = s
  ∧ (∀ s0 : Strategy,
       getTotalPrice (setDiscountStrategy s (setDiscountStrategy s0 c))
       = getTotalPrice (setDiscountStrategy s c))
  ∧ (∀ history : list CartCall,
       last (session (history ++ [SetDiscountStrategy s; GetTotalPrice]) (c, [])).2
       = Some (doDiscount s (subtotal (items c ++ itemsAdded history)))).
Proof.
  split_and!; try reflexivity.
  - intros l item. unfold subtotal. by rewrite foldl_app.
  - intros history.
    change [SetDiscountStrategy s; GetTotalPrice]
      with ([SetDiscountStrategy s] ++ [GetTotalPrice]).
    rewrite app_assoc, !session_snoc. simpl.
    rewrite last_snoc. unfold getTotalPrice. simpl.
    by rewrite items_session.
Qed.

(** The three totals the driver prints. *)
Example driver_totals :
  getTotalPrice driverCart = 90%float
  ∧ getTotalPrice (setDiscountStrategy (FlatDiscountStrategy 10) driverCart)
    = 80%float
  ∧ getTotalPrice (setDiscountStrategy (PercentageDiscountStrategy 10) driverCart)
    = 81%float.
Proof. split_and!; vm_compute; reflexivity. Qed.

End StrategyFacts.

(** ** Decorator *)

Section DecoratorFacts.
Import Decorator.

Lemma decorate_snoc (ls : list Layer) (l : Layer) (c : Coffee) :
  decorate (ls ++ [l]) c = wrap l (decorate ls c).
Proof. unfold decorate. by rewrite foldl_app. Qed.

Lemma getCost_wrap (l : Layer) (c : Coffee) :
  getCost (wrap l c) = (getCost c + increment l)%Q.
Proof. by destruct l. Qed.

Lemma getDescription_wrap (l : Layer) (c : Coffee) :
  getDescription (wrap l c) = getDescription c +:+ suffix l.
Proof. by destruct l. Qed.

Lemma sum_app (l1 l2 : list number) : (sum (l1 ++ l2) == sum l1 + sum l2)%Q.
Proof.
  induction l1 as [|x l1 IH]; simpl.
  - lra.
  - rewrite IH. lra.
Qed.

Lemma sum_Permutation (l1 l2 : list number) : l1 ≡ₚ l2 → (sum l1 == sum l2)%Q.
Proof.
  induction 1 as [|x l1 l2 _ IH|x y l|l1 l2 l3 _ IH1 _ IH2]; simpl.
  - reflexivity.
  - rewrite IH. reflexivity.
  - lra.
  - by rewrite IH1.
Qed.

Lemma getCost_decorate (ls : list Layer) (c : Coffee) :
  (getCost (decorate ls c) == getCost c + sum (map increment ls))%Q.
Proof.
  induction ls as [|l ls IH] using rev_ind.
  - simpl. lra.
  - rewrite decorate_snoc, getCost_wrap, IH, map_app, sum_app. simpl. lra.
Qed.

Lemma append_assoc (s1 s2 s3 : string) : (s1 +:+ s2) +:+ s3 = s1 +:+ (s2 +:+ s3).
Proof.
  induction s1 as [|a s1 IH]; [reflexivity|].
  change (String a ((s1 +:+ s2) +:+ s3) = String a (s1 +:+ (s2 +:+ s3))).
  by rewrite IH.
Qed.

Lemma append_empty_r (s : string) : s +:+ "" = s.
Proof.
  induction s as [|a s IH]; [reflexivity|].
  change (String a (s +:+ "") = String a s).
  by rewrite IH.
Qed.

Lemma concat_app (l1 l2 : list string) :
  concat (l1 ++ l2) = concat l1 +:+ concat l2.
Proof.
  induction l1 as [|x l1 IH]; simpl; [done|].
  by rewrite IH, append_assoc.
Qed.

(** C5. The cost of a chain is the cost of what it wraps plus the
    increments of its layers, so two chains of the same layers around the
    same coffee cost the same whatever the nesting order; plain coffee under
    milk and sugar costs 170 with either layer outermost. *)
Theorem getCost_order_independent (ls ls' : list Layer) (c : Coffee) :
  ls ≡ₚ ls' →
  (getCost (decorate ls c) == getCost c + sum (map increment ls))%Q
  ∧ (getCost (decorate ls c) == getCost (decorate ls' c))%Q
  ∧ getCost PlainCoffee = 100%Q
  ∧ getCost (SugarDecorator (MilkDecorator PlainCoffee)) = 170%Q
  ∧ getCost (MilkDecorator (SugarDecorator PlainCoffee)) = 170%Q.
Proof.
  intros Hperm. split_and!; try reflexivity.
  - apply getCost_decorate.
  - rewrite !getCost_decorate.
    apply Qplus_inj_l, sum_Permutation.
    by apply Permutation_map.
Qed.

Lemma getCost_order_independent_witness :
  [Milk; Sugar] ≡ₚ [Sugar; Milk]
  ∧ (getCost (SugarDecorator (MilkDecorator PlainCoffee))
     == getCost (MilkDecorator (SugarDecorator PlainCoffee)))%Q.
Proof.
  assert (Hswap : [Milk; Sugar] ≡ₚ [Sugar; Milk]) by apply perm_swap.
  split; [exact Hswap|].
  exact (proj1 (proj2 (getCost_order_independent [Milk; Sugar] [Sugar; Milk]
                         PlainCoffee Hswap))).
Defined.

(** C6. The description of a chain is the description of what it wraps
    followed by the suffixes of its layers from the innermost to the
    outermost, that is, in the order of construction; sugar over milk over
    plain coffee reads "Plain Coffee Milk Sugar", and the other nesting
    reads differently. *)
Theorem getDescription_nesting_order (ls : list Layer) (c : Coffee) :
  getDescription (decorate ls c) = getDescription c +:+ concat (map suffix ls)
  ∧ getDescription (decorate ls PlainCoffee)
    = "Plain Coffee" +:+ concat (map suffix ls)
  ∧ getDescription (SugarDecorator (MilkDecorator PlainCoffee))
    = "Plain Coffee Milk Sugar"
  ∧ getDescription (MilkDecorator (SugarDecorator PlainCoffee))
    = "Plain Coffee Sugar Milk".
Proof.
  assert (Hgen : ∀ c', getDescription (decorate ls c')
                       = getDescription c' +:+ concat (map suffix ls)).
  { intros c'. induction ls as [|l ls IH] using rev_ind.
    - simpl. by rewrite append_empty_r.
    - rewrite decorate_snoc, getDescription_wrap, IH, map_app, concat_app.
      simpl. by rewrite append_empty_r, append_assoc. }
  split_and!; try reflexivity; apply Hgen.
Qed.

End DecoratorFacts.

(** ** Factory *)

Section FactoryFacts.
Import Factory.

(** C3. Each of the three known names yields the shape whose [draw] prints
    the line of that name, and any other string yields a circle, whose
    [draw] prints "Drawing circle."; [createShape] has no failing branch. *)
Theorem createShape_draw (type : string) (out : Console) :
  (createShape "Circle" = Circle
   ∧ draw (createShape "Circle") out = out ++ ["Drawing circle."])
  ∧ (createShape "Rectangle" = Rectangle
     ∧ draw (createShape "Rectangle") out = out ++ ["Drawing rectangle."])
  ∧ (createShape "Square" = Square
     ∧ draw (createShape "Square") out = out ++ ["Drawing square."])
  ∧ (type ≠ "Circle" → type ≠ "Rectangle" → type ≠ "Square" →
     createShape type = Circle
     ∧ draw (createShape type) out = out ++ ["Drawing circle."]).
Proof.
  split_and!; try reflexivity.
  intros HC HR HS. unfold createShape.
  rewrite !decide_False by done. done.
Qed.

Lemma createShape_draw_witness :
  createShape "Triangle" = Circle
  ∧ draw (createShape "Triangle") [] = ["Drawing circle."].
Proof.
  apply (createShape_draw "Triangle" []); discriminate.
Defined.

End FactoryFacts.

(** ** Builder *)

Section BuilderFacts.
Import Builder.

Lemma chain_snoc (cs : list Setter) (c : Setter) (st : CustomPizzaBuilder * Arrays) :
  chain (cs ++ [c]) st = call c (chain cs st).
Proof. unfold chain. by rewrite foldl_app. Qed.

Lemma added_snoc (cs : list Setter) (c : Setter) :
  added (cs ++ [c])
  = added cs ++ match c with AddTopping t => [t] | _ => [] end.
Proof. unfold added. rewrite omap_app. by destruct c. Qed.

(** The builder never changes the address of its toppings array. *)
Lemma toppings_chain (cs : list Setter) (st : CustomPizzaBuilder * Arrays) :
  toppings (chain cs st).1 = toppings st.1.
Proof.
  induction cs as [|c cs IH] using rev_ind; [done|].
  rewrite chain_snoc. by destruct c.
Qed.

(** The array of the builder grows by the toppings added, in call order. *)
Lemma toppings_array_chain (cs : list Setter) (st : CustomPizzaBuilder * Arrays) :
  (chain cs st).2 !! toppings st.1
  = (λ a, a ++ added cs) <$> st.2 !! toppings st.1.
Proof.
  induction cs as [|c cs IH] using rev_ind.
  - simpl. destruct (st.2 !! toppings st.1); simpl; [|done].
    by rewrite app_nil_r.
  - rewrite chain_snoc, added_snoc.
    destruct c; simpl; rewrite ?app_nil_r; try exact IH.
    unfold addTopping. rewrite toppings_chain, list_lookup_alter_eq, IH.
    destruct (st.2 !! toppings st.1); simpl; [|done].
    by rewrite <- app_assoc.
Qed.

(** Every other array of the store is left alone. *)
Lemma other_arrays_chain (cs : list Setter) (st : CustomPizzaBuilder * Arrays) (j : Ref) :
  j ≠ toppings st.1 → (chain cs st).2 !! j = st.2 !! j.
Proof.
  intros Hj.
  induction cs as [|c cs IH] using rev_ind; [done|].
  rewrite chain_snoc.
  destruct c; simpl; try exact IH.
  unfold addTopping. rewrite toppings_chain.
  by rewrite list_lookup_alter_ne.
Qed.

(** Membership in a list written out, and its inversion. *)
Ltac listed :=
  repeat first [ apply list_elem_of_here | apply list_elem_of_further ].

Ltac only_listed H :=
  repeat (apply elem_of_cons in H as [H|H]; [congruence|]);
  by apply elem_of_nil in H.

Lemma size_chain (cs : list Setter) (st : CustomPizzaBuilder * Arrays) (s : string) :
  SetSize s ∈ cs → (∀ s', SetSize s' ∈ cs → s' = s) →
  size (chain cs st).1 = s.
Proof.
  induction cs as [|c cs IH] using rev_ind; intros Hin Hall.
  - by apply elem_of_nil in Hin.
  - rewrite chain_snoc.
    assert (Hrest : ∀ s', SetSize s' ∈ cs → s' = s).
    { intros s' Hs'. apply Hall, elem_of_app. by left. }
    apply elem_of_app in Hin as [Hin|Hin%list_elem_of_singleton].
    + destruct c; simpl; auto.
      apply Hall, elem_of_app. right. by apply list_elem_of_singleton.
    + by subst c.
Qed.

Lemma crust_chain (cs : list Setter) (st : CustomPizzaBuilder * Arrays) (s : string) :
  SetCrust s ∈ cs → (∀ s', SetCrust s' ∈ cs → s' = s) →
  crust (chain cs st).1 = s.
Proof.
  induction cs as [|c cs IH] using rev_ind; intros Hin Hall.
  - by apply elem_of_nil in Hin.
  - rewrite chain_snoc.
    assert (Hrest : ∀ s', SetCrust s' ∈ cs → s' = s).
    { intros s' Hs'. apply Hall, elem_of_app. by left. }
    apply elem_of_app in Hin as [Hin|Hin%list_elem_of_singleton].
    + destruct c; simpl; auto.
      apply Hall, elem_of_app. right. by apply list_elem_of_singleton.
    + by subst c.
Qed.

Lemma sauce_chain (cs : list Setter) (st : CustomPizzaBuilder * Arrays) (s : string) :
  SetSauce s ∈ cs → (∀ s', SetSauce s' ∈ cs → s' = s) →
  sauce (chain cs st).1 = s.
Proof.
  induction cs as [|c cs IH] using rev_ind; intros Hin Hall.
  - by apply elem_of_nil in Hin.
  - rewrite chain_snoc.
    assert (Hrest : ∀ s', SetSauce s' ∈ cs → s' = s).
    { intros s' Hs'. apply Hall, elem_of_app. by left. }
    apply elem_of_app in Hin as [Hin|Hin%list_elem_of_singleton].
    + destruct c; simpl; auto.
      apply Hall, elem_of_app. right. by apply list_elem_of_singleton.
    + by subst c.
Qed.

(** A fresh builder holds the address of a fresh, empty array. *)
Lemma newCustomPizzaBuilder_array (h : Arrays) :
  (newCustomPizzaBuilder h).2 !! toppings (newCustomPizzaBuilder h).1 = Some [].
Proof.
  unfold newCustomPizzaBuilder; simpl.
  rewrite lookup_app_r by lia.
  by rewrite Nat.sub_diag.
Qed.

Lemma toppingsOf_chain_fresh (cs : list Setter) (h : Arrays) :
  let st := chain cs (newCustomPizzaBuilder h) in
  toppingsOf (build st.1) st.2 = Some (added cs).
Proof.
  intros st. subst st. unfold toppingsOf, build. simpl.
  rewrite toppings_chain, toppings_array_chain, newCustomPizzaBuilder_array.
  done.
Qed.

(** C7, as stated, fails: the driver's five calls made in another order,
    pepperoni added before cheese, build a pizza whose toppings are not
    the configured list. *)
Lemma addTopping_order_matters :
  swappedCalls ≡ₚ driverCalls
  ∧ toppingsOf (build (chain swappedCalls (newCustomPizzaBuilder [])).1)
               (chain swappedCalls (newCustomPizzaBuilder [])).2
    = Some ["Pepperoni"; "Cheese"]
  ∧ toppingsOf (build (chain swappedCalls (newCustomPizzaBuilder [])).1)
               (chain swappedCalls (newCustomPizzaBuilder [])).2
    ≠ Some ["Cheese"; "Pepperoni"].
Proof.
  split_and!.
  - unfold swappedCalls, driverCalls. solve_Permutation.
  - reflexivity.
  - discriminate.
Qed.

(** C7, amended. On a fresh builder the driver's five calls, made in any
    order that adds cheese before pepperoni, build the pizza Large, Thin,
    [Cheese, Pepperoni], Spicy: a setter of one field leaves the other
    three fields alone, and [addTopping] changes no field of the builder
    and no array but the builder's own. *)
Theorem build_independent_of_setter_order (cs : list Setter) (h : Arrays) :
  cs ≡ₚ driverCalls →
  added cs = ["Cheese"; "Pepperoni"] →
  let st := chain cs (newCustomPizzaBuilder h) in
  (Pizza.size (build st.1) = "Large"
   ∧ Pizza.crust (build st.1) = "Thin"
   ∧ toppingsOf (build st.1) st.2 = Some ["Cheese"; "Pepperoni"]
   ∧ Pizza.sauce (build st.1) = "Spicy")
  ∧ (∀ s b, crust (setSize s b) = crust b
            ∧ toppings (setSize s b) = toppings b
            ∧ sauce (setSize s b) = sauce b)
  ∧ (∀ s b, size (setCrust s b) = size b
            ∧ toppings (setCrust s b) = toppings b
            ∧ sauce (setCrust s b) = sauce b)
  ∧ (∀ s b, size (setSauce s b) = size b
            ∧ crust (setSauce s b) = crust b
            ∧ toppings (setSauce s b) = toppings b)
  ∧ (∀ t (b : CustomPizzaBuilder) (hp : Arrays),
       (call (AddTopping t) (b, hp)).1 = b
       ∧ ∀ j : Ref, j ≠ toppings b → addTopping t b hp !! j = hp !! j).
Proof.
  intros Hperm Hadded st.
  assert (Hmem : ∀ c, c ∈ cs ↔ c ∈ driverCalls).
  { intros c. by rewrite Hperm. }
  split_and!; try done.
  - apply size_chain.
    + apply Hmem. unfold driverCalls. listed.
    + intros s' Hs'%Hmem. unfold driverCalls in Hs'. only_listed Hs'.
  - apply crust_chain.
    + apply Hmem. unfold driverCalls. listed.
    + intros s' Hs'%Hmem. unfold driverCalls in Hs'. only_listed Hs'.
  - subst st. rewrite <- Hadded. apply toppingsOf_chain_fresh.
  - apply sauce_chain.
    + apply Hmem. unfold driverCalls. listed.
    + intros s' Hs'%Hmem. unfold driverCalls in Hs'. only_listed Hs'.
  - intros t b hp. split; [done|].
    intros j Hj. unfold addTopping. by rewrite list_lookup_alter_ne.
Qed.

Lemma build_independent_of_setter_order_witness :
  [SetSauce "Spicy"; AddTopping "Cheese"; SetCrust "Thin";
   AddTopping "Pepperoni"; SetSize "Large"] ≡ₚ driverCalls
  ∧ toppingsOf
      (build (chain [SetSauce "Spicy"; AddTopping "Cheese"; SetCrust "Thin";
                     AddTopping "Pepperoni"; SetSize "Large"]
                    (newCustomPizzaBuilder [["Basil"]])).1)
      (chain [SetSauce "Spicy"; AddTopping "Cheese"; SetCrust "Thin";
              AddTopping "Pepperoni"; SetSize "Large"]
             (newCustomPizzaBuilder [["Basil"]])).2
    = Some ["Cheese"; "Pepperoni"].
Proof.
  assert (Hperm : [SetSauce "Spicy"; AddTopping "Cheese"; SetCrust "Thin";
                   AddTopping "Pepperoni"; SetSize "Large"] ≡ₚ driverCalls).
  { unfold driverCalls. solve_Permutation. }
  split; [exact Hperm|].
  apply (build_independent_of_setter_order _ [["Basil"]] Hperm).
  reflexivity.
Defined.

End BuilderFacts.

(** ** Binary64 subtraction and the order of two numbers *)

Section Binary64Facts.
Import Binary64.

(** A mantissa of [d] binary digits lies from [2^(d-1)] up to, but not
    including, [2^d]. *)
Lemma digits2_bounds (m : positive) :
  2 ^ (Zpos (digits2_pos m) - 1) <= Zpos m < 2 ^ Zpos (digits2_pos m).
Proof.
  induction m as [m IH|m IH|]; cbn [digits2_pos].
  - rewrite Pos2Z.inj_succ.
    replace (Z.succ (Zpos (digits2_pos m)) - 1) with (Z.succ (Zpos (digits2_pos m) - 1)) by lia.
    rewrite !Z.pow_succ_r by lia. lia.
  - rewrite Pos2Z.inj_succ.
    replace (Z.succ (Zpos (digits2_pos m)) - 1) with (Z.succ (Zpos (digits2_pos m) - 1)) by lia.
    rewrite !Z.pow_succ_r by lia. lia.
  - simpl. lia.
Qed.

Lemma shr_1_m (mrs : shr_record) :
  0 <= shr_m mrs -> shr_m (shr_1 mrs) = shr_m mrs / 2.
Proof.
  destruct mrs as [m r s]. cbn [shr_m]. intros Hm.
  rewrite <- Z.div2_div.
  destruct m as [|[p|p|]|p]; try reflexivity. lia.
Qed.

Lemma iter_shr_m (p : positive) :
  forall mrs : shr_record,
    0 <= shr_m mrs -> shr_m (SpecFloat.iter_pos shr_1 p mrs) = shr_m mrs / 2 ^ Zpos p.
Proof.
  induction p as [p IH|p IH|]; intros mrs Hm; cbn [SpecFloat.iter_pos].
  - assert (H1 : 0 <= shr_m (shr_1 mrs)).
    { rewrite shr_1_m by exact Hm. apply Z.div_pos; lia. }
    assert (H2 : 0 <= shr_m (SpecFloat.iter_pos shr_1 p (shr_1 mrs))).
    { rewrite IH by exact H1. apply Z.div_pos; [exact H1|]. apply Z.pow_pos_nonneg; lia. }
    rewrite IH by exact H2. rewrite IH by exact H1. rewrite shr_1_m by exact Hm.
    assert (Hpow : 0 < 2 ^ Zpos p) by (apply Z.pow_pos_nonneg; lia).
    rewrite !Z.div_div by lia.
    f_equal.
    assert (Hexp : 2 ^ Zpos p~1 = 2 * (2 ^ Zpos p * 2 ^ Zpos p)).
    { rewrite <- Z.pow_add_r, <- Z.pow_succ_r by lia. f_equal. lia. }
    rewrite Hexp. ring.
  - assert (H2 : 0 <= shr_m (SpecFloat.iter_pos shr_1 p mrs)).
    { rewrite IH by exact Hm. apply Z.div_pos; [exact Hm|]. apply Z.pow_pos_nonneg; lia. }
    rewrite IH by exact H2. rewrite IH by exact Hm.
    assert (Hpow : 0 < 2 ^ Zpos p) by (apply Z.pow_pos_nonneg; lia).
    rewrite !Z.div_div by lia.
    f_equal. rewrite <- Z.pow_add_r by lia. f_equal. lia.
  - rewrite shr_1_m by exact Hm. reflexivity.
Qed.


Lemma shr_positive (m : positive) (r s : bool) (e n : Z) :
  n < Zpos (digits2_pos m) ->
  exists m' : positive,
    shr_m (fst (shr {| shr_m := Zpos m; shr_r := r; shr_s := s |} e n)) = Zpos m'
    /\ e <= snd (shr {| shr_m := Zpos m; shr_r := r; shr_s := s |} e n).
Proof.
  intros Hn. destruct n as [|p|p]; cbn [shr fst snd shr_m].
  - exists m. split; [reflexivity|lia].
  - rewrite iter_shr_m by (cbn; lia). cbn [shr_m].
    destruct (digits2_bounds m) as [Hlow _].
    assert (Hle : 2 ^ Zpos p <= Zpos m).
    { apply Z.le_trans with (2 ^ (Zpos (digits2_pos m) - 1)); [|exact Hlow].
      apply Z.pow_le_mono_r; lia. }
    assert (Hpos : 0 < Zpos m / 2 ^ Zpos p).
    { apply Z.div_str_pos. split; [apply Z.pow_pos_nonneg; lia|exact Hle]. }
    destruct (Zpos m / 2 ^ Zpos p) as [|q|q]; try lia.
    exists q. split; [reflexivity|lia].
  - exists m. split; [reflexivity|lia].
Qed.

Lemma prec_positive : 0 < prec.
Proof. reflexivity. Qed.

Lemma shr_fexp_positive (m : positive) (e : Z) (l : location) :
  emin <= e ->
  exists m' : positive,
    shr_m (fst (shr_fexp prec emax (Zpos m) e l)) = Zpos m'
    /\ emin <= snd (shr_fexp prec emax (Zpos m) e l).
Proof.
  intros He. unfold shr_fexp.
  assert (Hn : fexp prec emax (Zdigits2 (Zpos m) + e) - e < Zpos (digits2_pos m)).
  { unfold fexp. cbn [Zdigits2]. pose proof prec_positive.
    pose proof (Pos2Z.is_pos (digits2_pos m)). lia. }
  assert (Hrec : exists r s, shr_record_of_loc (Zpos m) l
                             = {| shr_m := Zpos m; shr_r := r; shr_s := s |}).
  { destruct l as [|[]]; cbn; eauto. }
  destruct Hrec as (r & s & ->).
  destruct (shr_positive m r s e _ Hn) as (m' & Hm' & He').
  exists m'. split; [exact Hm'|lia].
Qed.

Lemma round_nearest_even_positive (m : positive) (l : location) :
  exists m' : positive, round_nearest_even (Zpos m) l = Zpos m'.
Proof.
  destruct l as [|[]]; cbn [round_nearest_even]; try (eexists; reflexivity).
  destruct (Z.even (Zpos m)); eexists; reflexivity.
Qed.

Lemma binary_round_aux_signed (sx : bool) (m : positive) (e : Z) (l : location) :
  emin <= e -> signed sx (binary_round_aux prec emax sx (Zpos m) e l).
Proof.
  intros He. unfold binary_round_aux.
  destruct (shr_fexp_positive m e l He) as (m1 & Hm1 & He1).
  destruct (shr_fexp prec emax (Zpos m) e l) as [mrs1 e1]. cbn [fst snd] in *.
  rewrite Hm1.
  destruct (round_nearest_even_positive m1 (loc_of_shr_record mrs1)) as (m2 & ->).
  destruct (shr_fexp_positive m2 e1 loc_Exact He1) as (m3 & Hm3 & He3).
  destruct (shr_fexp prec emax (Zpos m2) e1 loc_Exact) as [mrs3 e3]. cbn [fst snd] in *.
  rewrite Hm3.
  destruct (e3 <=? emax - prec); reflexivity.
Qed.

Lemma binary_round_signed (sx : bool) (m : positive) (e : Z) :
  emin <= e -> signed sx (binary_round prec emax sx m e).
Proof.
  intros He. unfold binary_round, shl_align.
  destruct (fexp prec emax (Zpos (digits2_pos m) + e) - e) eqn:Hd;
    apply binary_round_aux_signed; try exact He.
  unfold fexp. lia.
Qed.


Lemma iter_xO_value (m d : positive) :
  Zpos (Pos.iter xO m d) = Zpos m * 2 ^ Zpos d.
Proof.
  rewrite (Pos.iter_swap_gen _ _ Zpos xO (Z.mul 2)) by reflexivity.
  rewrite <- Z.shiftl_mul_pow2 by lia. reflexivity.
Qed.

Lemma shl_align_value (m : positive) (e ez : Z) :
  ez <= e -> Zpos (fst (shl_align m e ez)) = Zpos m * 2 ^ (e - ez).
Proof.
  intros Hle. unfold shl_align.
  destruct (ez - e) as [|d|d] eqn:Hd; cbn [fst].
  - replace (e - ez) with 0 by lia. lia.
  - lia.
  - rewrite iter_xO_value. f_equal. f_equal. lia.
Qed.

Lemma bounded_facts (m : positive) (e : Z) :
  bounded prec emax m e = true ->
  emin <= e /\ Zpos (digits2_pos m) <= prec
  /\ (emin < e -> Zpos (digits2_pos m) = prec).
Proof.
  unfold bounded, canonical_mantissa, fexp.
  intros [Hc _]%andb_prop. apply Z.eqb_eq in Hc. lia.
Qed.

(** Two valid finite floats compare in magnitude as their mantissas do
    once aligned to the smaller exponent. *)
Lemma aligned_compare (mx my : positive) (ex ey : Z) :
  bounded prec emax mx ex = true -> bounded prec emax my ey = true ->
  (Zpos (fst (shl_align mx ex (Z.min ex ey)))
   ?= Zpos (fst (shl_align my ey (Z.min ex ey))))
  = match ex ?= ey with
    | Lt => Lt
    | Gt => Gt
    | Eq => Pos.compare_cont Eq mx my
    end.
Proof.
  intros Hx Hy.
  destruct (bounded_facts mx ex Hx) as (Hex & Hdx & Hnx).
  destruct (bounded_facts my ey Hy) as (Hey & Hdy & Hny).
  destruct (digits2_bounds mx) as [Hlx Hux].
  destruct (digits2_bounds my) as [Hly Huy].
  rewrite !shl_align_value by lia.
  assert (Hp : 0 < prec) by apply prec_positive.
  destruct (Z.compare_spec ex ey) as [Heq|Hlt|Hgt].
  - subst ey. rewrite Z.min_id, Z.sub_diag, !Z.mul_1_r. reflexivity.
  - rewrite Z.min_l by lia. rewrite Z.sub_diag, Z.mul_1_r.
    apply Z.compare_lt_iff.
    rewrite (Hny ltac:(lia)) in Hly.
    assert (Hpow : 2 <= 2 ^ (ey - ex)).
    { change 2 with (2 ^ 1) at 1. apply Z.pow_le_mono_r; lia. }
    assert (Hx53 : Zpos mx < 2 ^ prec).
    { apply Z.lt_le_trans with (2 ^ Zpos (digits2_pos mx)); [exact Hux|].
      apply Z.pow_le_mono_r; lia. }
    assert (Hsplit : 2 ^ prec = 2 * 2 ^ (prec - 1)).
    { rewrite <- Z.pow_succ_r by lia. f_equal; lia. }
    nia.
  - rewrite Z.min_r by lia. rewrite Z.sub_diag, Z.mul_1_r.
    apply Z.compare_gt_iff.
    rewrite (Hnx ltac:(lia)) in Hlx.
    assert (Hpow : 2 <= 2 ^ (ex - ey)).
    { change 2 with (2 ^ 1) at 1. apply Z.pow_le_mono_r; lia. }
    assert (Hy53 : Zpos my < 2 ^ prec).
    { apply Z.lt_le_trans with (2 ^ Zpos (digits2_pos my)); [exact Huy|].
      apply Z.pow_le_mono_r; lia. }
    assert (Hsplit : 2 ^ prec = 2 * 2 ^ (prec - 1)).
    { rewrite <- Z.pow_succ_r by lia. f_equal; lia. }
    nia.
Qed.

Lemma binary_normalize_negative (M ez : Z) :
  emin <= ez ->
  SFltb (binary_normalize prec emax M ez false) (S754_zero false) = (M <? 0).
Proof.
  intros He. destruct M as [|m|m]; cbn [binary_normalize].
  - reflexivity.
  - pose proof (binary_round_signed false m ez He) as Hs.
    destruct (binary_round prec emax false m ez) as [| | |s m' e'];
      cbn in Hs; try contradiction; subst; reflexivity.
  - pose proof (binary_round_signed true m ez He) as Hs.
    destruct (binary_round prec emax true m ez) as [| | |s m' e'];
      cbn in Hs; try contradiction; subst; reflexivity.
Qed.

(** The difference of two binary64 numbers is below zero exactly when the
    first is below the second. *)
Lemma SFsub_negative (x y : spec_float) :
  valid_binary x = true -> valid_binary y = true ->
  SFltb (SF64sub x y) (S754_zero false) = SFltb x y.
Proof.
  intros Hx Hy.
  destruct x as [sx|sx| |sx mx ex], y as [sy|sy| |sy my ey];
    try reflexivity;
    try (destruct sx; try destruct sy; reflexivity);
    try (destruct sy; reflexivity).
  cbn [valid_binary] in Hx, Hy.
  unfold SF64sub, SFsub.
  destruct (bounded_facts mx ex Hx) as (Hex & _).
  destruct (bounded_facts my ey Hy) as (Hey & _).
  rewrite binary_normalize_negative by lia.
  pose proof (aligned_compare mx my ex ey Hx Hy) as Hcmp.
  unfold SFltb, SFcompare.
  set (ax := Zpos (fst (shl_align mx ex (Z.min ex ey)))) in *.
  set (ay := Zpos (fst (shl_align my ey (Z.min ex ey)))) in *.
  assert (Hax : 0 < ax) by (subst ax; lia).
  assert (Hay : 0 < ay) by (subst ay; lia).
  destruct sx, sy; cbn [cond_Zopp].
  - replace (match ex ?= ey with
             | Eq => CompOpp (Pos.compare_cont Eq mx my)
             | Lt => Gt
             | Gt => Lt
             end) with (CompOpp (ax ?= ay))
      by (rewrite Hcmp; destruct (ex ?= ey); reflexivity).
    destruct (Z.compare_spec ax ay); cbn [CompOpp];
      (apply Z.ltb_lt; lia) || (apply Z.ltb_ge; lia).
  - apply Z.ltb_lt. lia.
  - apply Z.ltb_ge. lia.
  - rewrite <- Hcmp.
    destruct (Z.compare_spec ax ay);
      (apply Z.ltb_lt; lia) || (apply Z.ltb_ge; lia).
Qed.

Lemma binary_normalize_positive (M ez : Z) :
  emin <= ez ->
  SFltb (S754_zero false) (binary_normalize prec emax M ez false) = (0 <? M).
Proof.
  intros He. destruct M as [|m|m]; cbn [binary_normalize].
  - reflexivity.
  - pose proof (binary_round_signed false m ez He) as Hs.
    destruct (binary_round prec emax false m ez) as [| | |s m' e'];
      cbn in Hs; try contradiction; subst; reflexivity.
  - pose proof (binary_round_signed true m ez He) as Hs.
    destruct (binary_round prec emax true m ez) as [| | |s m' e'];
      cbn in Hs; try contradiction; subst; reflexivity.
Qed.

(** The difference of two binary64 numbers is above zero exactly when the
    second is below the first. *)
Lemma SFsub_positive (x y : spec_float) :
  valid_binary x = true -> valid_binary y = true ->
  SFltb (S754_zero false) (SF64sub x y) = SFltb y x.
Proof.
  intros Hx Hy.
  destruct x as [sx|sx| |sx mx ex], y as [sy|sy| |sy my ey];
    try reflexivity;
    try (destruct sx; try destruct sy; reflexivity);
    try (destruct sy; reflexivity).
  cbn [valid_binary] in Hx, Hy.
  unfold SF64sub, SFsub.
  destruct (bounded_facts mx ex Hx) as (Hex & _).
  destruct (bounded_facts my ey Hy) as (Hey & _).
  rewrite binary_normalize_positive by lia.
  pose proof (aligned_compare my mx ey ex Hy Hx) as Hcmp.
  rewrite (Z.min_comm ey ex) in Hcmp.
  unfold SFltb, SFcompare.
  set (ax := Zpos (fst (shl_align mx ex (Z.min ex ey)))) in *.
  set (ay := Zpos (fst (shl_align my ey (Z.min ex ey)))) in *.
  assert (Hax : 0 < ax) by (subst ax; lia).
  assert (Hay : 0 < ay) by (subst ay; lia).
  destruct sx, sy; cbn [cond_Zopp].
  - replace (match ey ?= ex with
             | Eq => CompOpp (Pos.compare_cont Eq my mx)
             | Lt => Gt
             | Gt => Lt
             end) with (CompOpp (ay ?= ax))
      by (rewrite Hcmp; destruct (ey ?= ex); reflexivity).
    destruct (Z.compare_spec ay ax); cbn [CompOpp];
      (apply Z.ltb_lt; lia) || (apply Z.ltb_ge; lia).
  - apply Z.ltb_ge. lia.
  - apply Z.ltb_lt. lia.
  - rewrite <- Hcmp.
    destruct (Z.compare_spec ay ax);
      (apply Z.ltb_lt; lia) || (apply Z.ltb_ge; lia).
Qed.

(** Over the binary64 numbers themselves. *)
Lemma sub_positive (x y : float) : (0 <? x - y)%float = (y <? x)%float.
Proof.
  rewrite !ltb_spec, sub_spec.
  change (Prim2SF 0) with (S754_zero false).
  apply SFsub_positive; apply Prim2SF_valid.
Qed.

Lemma sub_negative (x y : float) : (x - y <? 0)%float = (x <? y)%float.
Proof.
  rewrite !ltb_spec, sub_spec.
  change (Prim2SF 0) with (S754_zero false).
  apply SFsub_negative; apply Prim2SF_valid.
Qed.

End Binary64Facts.

(** ** Inputs are not validated *)

Section ValidationFacts.
Import Strategy Builder.

(** C9. The discount operations apply their formula to whatever binary64
    numbers they are given, with no branch that rejects an input: a flat
    discount above the price gives a total below 0, for every such pair of
    numbers; a negative rate and a negative price go into the formula as
    they are (a rate of -20 turns 50 into 60, two items at -5 total -10);
    and a builder on which [addTopping] was never called builds a pizza with
    the empty topping list. *)
Theorem inputs_not_validated :
  (∀ d p : float, doDiscount (FlatDiscountStrategy d) p = (p - d)%float)
  ∧ (∀ d p : float,
       (p <? d)%float = true →
       (doDiscount (FlatDiscountStrategy d) p <? 0)%float = true)
  ∧ (∀ r p : float,
       doDiscount (PercentageDiscountStrategy r) p = (p * (1 - r / 100))%float)
  ∧ doDiscount (PercentageDiscountStrategy (-20)) 50 = 60%float
  ∧ (∀ (n : string) (p q : float) (c : Cart),
       items (addItem {| name := n; price := p; quantity := q |} c)
       = items c ++ [{| name := n; price := p; quantity := q |}])
  ∧ (∀ (n : string) (p q : float),
       getTotalPrice (addItem {| name := n; price := p; quantity := q |}
                              (newCart NoDiscountStrategy))
       = (0 + p * q)%float)
  ∧ getTotalPrice (addItem {| name := "Refund"; price := -5; quantity := 2 |}
                           (newCart NoDiscountStrategy))
    = (-10)%float
  ∧ (∀ (cs : list Setter) (h : Arrays),
       added cs = [] →
       toppingsOf (build (chain cs (newCustomPizzaBuilder h)).1)
                  (chain cs (newCustomPizzaBuilder h)).2 = Some []).
Proof.
  split_and!; try reflexivity.
  - intros d p Hlt. cbn [doDiscount FlatDiscountStrategy].
    by rewrite sub_negative.
  - intros cs h Hnone. rewrite <- Hnone. apply toppingsOf_chain_fresh.
Qed.

Lemma inputs_not_validated_witness :
  (doDiscount (FlatDiscountStrategy 100) 30 <? 0)%float = true
  ∧ toppingsOf (build (chain [SetSize "Large"] (newCustomPizzaBuilder [])).1)
               (chain [SetSize "Large"] (newCustomPizzaBuilder [])).2 = Some [].
Proof.
  destruct inputs_not_validated
    as (_ & Hflat & _ & _ & _ & _ & _ & Hempty).
  split.
  - apply Hflat. reflexivity.
  - apply Hempty. reflexivity.
Defined.

End ValidationFacts.

(** ** Singleton *)

Section SingletonFacts.
Import Singleton.

Lemma getInstance_boot (t : Z) :
  getInstance t boot
  = (Some 0%nat,
     {| instance := Some 0%nat; lock := true;
        heap := [{| id := pretty t |}]; out := [] |}).
Proof. reflexivity. Qed.

(** Once [instance] is set, [getInstance] returns it and changes nothing. *)
Lemma getInstance_initialised (t : Z) (w : World) :
  is_Some (instance w) → getInstance t w = (instance w, w).
Proof.
  intros [r Hr]. unfold getInstance.
  destruct (instance w) eqn:Hinst; [|done].
  simpl. by rewrite Hinst.
Qed.

Lemma getInstances_initialised (ts : list Z) (w : World) :
  is_Some (instance w) →
  getInstances ts w = (replicate (length ts) (instance w), w).
Proof.
  intros Hset.
  induction ts as [|t ts IH]; [done|].
  cbn [getInstances length replicate].
  rewrite getInstance_initialised by done.
  by rewrite IH.
Qed.

(** C2. From process start, the first [getInstance] constructs one
    connection and returns its address, and every later call returns that
    same address and leaves the process state as it is, so no second
    connection is ever constructed: any two calls of a run return the same
    reference. *)
Theorem getInstance_same_instance (t : Z) (ts : list Z) :
  let first := getInstance t boot in
  let run := getInstances (t :: ts) boot in
  first.1 = Some 0%nat
  ∧ heap first.2 = [{| id := pretty t |}]
  ∧ run.1 = replicate (S (length ts)) (Some 0%nat)
  ∧ (∀ (i j : nat) (r1 r2 : option Ref),
       run.1 !! i = Some r1 → run.1 !! j = Some r2 →
       r1 = r2 ∧ is_Some r1)
  ∧ run.2 = first.2
  ∧ length (heap run.2) = 1%nat
  ∧ (∀ (t' : Z) (w : World),
       is_Some (instance w) → getInstance t' w = (instance w, w)).
Proof.
  intros first run.
  assert (Hrun : run = (replicate (S (length ts)) (Some 0%nat), first.2)).
  { subst run first. cbn [getInstances]. rewrite getInstance_boot.
    rewrite getInstances_initialised by (simpl; eauto). done. }
  rewrite Hrun. simpl.
  split_and!; try done.
  - intros i j r1 r2 Hi Hj.
    change (replicate (S (length ts)) (Some 0%nat) !! i = Some r1) in Hi.
    change (replicate (S (length ts)) (Some 0%nat) !! j = Some r2) in Hj.
    apply lookup_replicate in Hi as [-> _].
    apply lookup_replicate in Hj as [-> _].
    eauto.
  - intros t' w. apply getInstance_initialised.
Qed.

Lemma getInstance_same_instance_witness :
  (getInstances [1000; 2000] boot).1 = [Some 0%nat; Some 0%nat]
  ∧ getInstance 2000 (getInstance 1000 boot).2
    = (Some 0%nat, (getInstance 1000 boot).2).
Proof.
  split.
  - exact (proj1 (proj2 (proj2 (getInstance_same_instance 1000 [2000])))).
  - apply (getInstance_same_instance 1000 []). simpl. eauto.
Defined.

(** The driver: both [connect] calls print the identifier made by the
    first [getInstance]. *)
Example driver_connects :
  let '(db1, w1) := getInstance 1000 boot in
  let '(db2, w2) := getInstance 2000 w1 in
  db1 = db2
  ∧ (connect db1 w1 ≫= connect db2) = Some
      {| instance := Some 0%nat; lock := true;
         heap := [{| id := "1000" |}];
         out := ["Connected to database with ID: 1000";
                 "Connected to database with ID: 1000"] |}.
Proof. split; reflexivity. Qed.

End SingletonFacts.

(* ===================================================================== *)
(** * Further properties *)
(* ===================================================================== *)

(** ** Observer: subscribing, unsubscribing and series of readings *)

Section ObserverMore.
Import Observer.

Lemma filter_ne_snoc_same (o : Ref) (l : list Ref) :
  filter (λ obs, obs ≠ o) (l ++ [o]) = filter (λ obs, obs ≠ o) l.
Proof.
  rewrite filter_app, filter_cons_False by (intros H; by apply H).
  by rewrite filter_nil, app_nil_r.
Qed.

(** X1. [unsubscribe(o)] right after [subscribe(o)] leaves the station as
    [unsubscribe(o)] alone would: it is the station as it was when [o] was
    not subscribed before, and otherwise the earlier subscriptions of [o]
    are gone too. *)
Theorem subscribe_unsubscribe (w : World) (o : Ref) :
  unsubscribe o (subscribe o w) = unsubscribe o w
  ∧ (o ∉ observers (station w) → unsubscribe o (subscribe o w) = w)
  ∧ (o ∈ observers (station w) →
     (length (observers (station (unsubscribe o (subscribe o w))))
      < length (observers (station w)))%nat).
Proof.
  assert (Hsame : unsubscribe o (subscribe o w) = unsubscribe o w).
  { unfold unsubscribe, subscribe; simpl. by rewrite filter_ne_snoc_same. }
  split_and!.
  - exact Hsame.
  - intros Hno. rewrite Hsame. unfold unsubscribe.
    rewrite filter_ne_absent by done. by destruct w as [[obs dat] cs].
  - intros Hin. rewrite Hsame. simpl.
    apply (length_filter_lt _ _ o); [done|]. intros H; by apply H.
Qed.

Lemma subscribe_unsubscribe_witness :
  unsubscribe 4%nat (subscribe 4%nat threeDisplays) = threeDisplays
  ∧ observers (station (unsubscribe 2%nat (subscribe 2%nat threeDisplays)))
    = [1; 3]%nat.
Proof.
  split.
  - apply (subscribe_unsubscribe threeDisplays 4%nat).
    unfold threeDisplays. rewrite observers_subscribeAll. simpl.
    rewrite !not_elem_of_cons. split_and!; try lia.
    apply not_elem_of_nil.
  - exact (f_equal (λ w, observers (station w))
             (proj1 (subscribe_unsubscribe threeDisplays 2%nat))).
Defined.

(** X2. Unsubscribing twice is unsubscribing once, and two unsubscriptions
    can be made in either order. *)
Theorem unsubscribe_idempotent_commutes (w : World) (a b : Ref) :
  unsubscribe a (unsubscribe a w) = unsubscribe a w
  ∧ unsubscribe a (unsubscribe b w) = unsubscribe b (unsubscribe a w).
Proof.
  unfold unsubscribe; simpl. split.
  - by rewrite list_filter_filter_l by tauto.
  - rewrite !list_filter_filter.
    do 2 f_equal. apply list_filter_iff. tauto.
Qed.

(** X3. Subscriptions are not deduplicated: one more [subscribe(o)] gives
    [o] one more [update] call at the next state change, last in the
    broadcast, and leaves the calls to every other observer as they were. *)
Theorem subscribe_adds_one_notification (w : World) (o : Ref) (d : WeatherData) :
  let w' := subscribe o w in
  emitted w' (setWeatherData d w')
  = emitted w (setWeatherData d w) ++ [Update o d]
  ∧ notifications o (emitted w' (setWeatherData d w'))
    = S (notifications o (emitted w (setWeatherData d w)))
  ∧ (∀ o', o' ≠ o →
       notifications o' (emitted w' (setWeatherData d w'))
       = notifications o' (emitted w (setWeatherData d w))).
Proof.
  intros w'. subst w'.
  rewrite !emitted_setWeatherData. simpl. rewrite map_app. simpl.
  split_and!; [done|..].
  - unfold notifications. rewrite filter_app, length_app.
    rewrite filter_cons_True by done. simpl. lia.
  - intros o' Hne. unfold notifications. rewrite filter_app, length_app.
    rewrite filter_cons_False by (simpl; congruence). simpl. lia.
Qed.

Lemma subscribe_adds_one_notification_witness :
  notifications 2%nat
    (emitted (subscribe 3%nat threeDisplays)
             (setWeatherData hot (subscribe 3%nat threeDisplays)))
  = notifications 2%nat (emitted threeDisplays (setWeatherData hot threeDisplays)).
Proof.
  apply (subscribe_adds_one_notification threeDisplays 3%nat hot). lia.
Defined.

Lemma setAll_snoc (ds : list WeatherData) (d : WeatherData) (w : World) :
  setAll (ds ++ [d]) w = setWeatherData d (setAll ds w).
Proof. unfold setAll, forEach. by rewrite foldl_app. Qed.

Lemma observers_setAll (ds : list WeatherData) (w : World) :
  observers (station (setAll ds w)) = observers (station w).
Proof.
  induction ds as [|d ds IH] using rev_ind; [done|].
  by rewrite setAll_snoc.
Qed.

(** X4. A series of readings is broadcast reading by reading: the calls
    made are, for each reading in the order given, one [update] per
    subscription in subscription order; that is as many calls as readings
    times subscriptions.  The subscriber list is untouched, and the station
    ends up holding the last reading (the one it held, when there was no
    reading). *)
Theorem setAll_broadcasts (ds : list WeatherData) (w : World) :
  calls (setAll ds w)
  = calls w ++ (ds ≫= λ d, map (λ o, Update o d) (observers (station w)))
  ∧ length (emitted w (setAll ds w))
    = (length ds * length (observers (station w)))%nat
  ∧ observers (station (setAll ds w)) = observers (station w)
  ∧ data (station (setAll ds w)) = default (data (station w)) (last ds).
Proof.
  assert (Hcalls : calls (setAll ds w)
    = calls w ++ (ds ≫= λ d, map (λ o, Update o d) (observers (station w)))).
  { induction ds as [|d ds IH] using rev_ind.
    - simpl. by rewrite app_nil_r.
    - rewrite setAll_snoc, calls_setWeatherData, IH, observers_setAll.
      rewrite bind_app. simpl. by rewrite app_nil_r, app_assoc. }
  split_and!.
  - exact Hcalls.
  - unfold emitted. rewrite Hcalls, drop_app_length. clear Hcalls.
    induction ds as [|d ds IH]; [done|].
    rewrite bind_cons, length_app, length_map, IH. simpl. lia.
  - apply observers_setAll.
  - destruct ds as [|d ds _] using rev_ind; [done|].
    by rewrite setAll_snoc, last_snoc.
Qed.

End ObserverMore.

(** ** Strategy: the sign of a discounted price *)

Section StrategyMore.
Import Strategy.

(** X6. For every pair of binary64 numbers, infinities, zeros and NaN
    included, the price after a flat discount is below 0 exactly when the
    price is below the amount, and above 0 exactly when the amount is below
    the price. *)
Theorem flat_discount_sign (d p : float) :
  (doDiscount (FlatDiscountStrategy d) p <? 0)%float = (p <? d)%float
  ∧ (0 <? doDiscount (FlatDiscountStrategy d) p)%float = (d <? p)%float.
Proof.
  cbn [doDiscount FlatDiscountStrategy].
  split; [apply sub_negative|apply sub_positive].
Qed.

(** X7. A cart without items passes the total 0 to its strategy: without
    a discount it costs 0, and with a flat discount it costs less than 0
    exactly when the amount is above 0. *)
Theorem empty_cart_total (s : Strategy) (d : float) :
  getTotalPrice (newCart s) = doDiscount s 0
  ∧ getTotalPrice (newCart NoDiscountStrategy) = 0%float
  ∧ (getTotalPrice (newCart (FlatDiscountStrategy d)) <? 0)%float
    = (0 <? d)%float.
Proof.
  split_and!; try reflexivity.
  unfold getTotalPrice, newCart, subtotal.
  cbn [items strategy foldl doDiscount FlatDiscountStrategy].
  apply sub_negative.
Qed.

End StrategyMore.

(** ** Decorator: what a chain costs and what its description tells *)

Section DecoratorMore.
Import Decorator.

Lemma decorate_layers (c : Coffee) : decorate (layers c) PlainCoffee = c.
Proof.
  induction c as [|c IH|c IH|c IH]; simpl; [done|..];
    by rewrite decorate_snoc, IH.
Qed.

Lemma layers_decorate (ls : list Layer) : layers (decorate ls PlainCoffee) = ls.
Proof.
  induction ls as [|l ls IH] using rev_ind; [done|].
  rewrite decorate_snoc. destruct l; simpl; by rewrite IH.
Qed.

Lemma increments_nonneg (ls : list Layer) : (0 <= sum (map increment ls))%Q.
Proof.
  induction ls as [|l ls IH]; simpl; [done|].
  assert (Hl : (0 <= increment l)%Q) by (by destruct l).
  lra.
Qed.

(** X8. Every coffee is plain coffee under the chain of its layers, read
    back from it and nested again in the same order; it costs 100 plus the
    increments of those layers, so never less than 100, and one more layer
    of any kind makes it dearer. *)
Theorem cost_of_any_coffee (c : Coffee) (l : Layer) :
  decorate (layers c) PlainCoffee = c
  ∧ (∀ ls : list Layer, layers (decorate ls PlainCoffee) = ls)
  ∧ (getCost c == 100 + sum (map increment (layers c)))%Q
  ∧ (100 <= getCost c)%Q
  ∧ (getCost c < getCost (wrap l c))%Q.
Proof.
  assert (Hcost : (getCost c == 100 + sum (map increment (layers c)))%Q).
  { rewrite <- (decorate_layers c) at 1. apply getCost_decorate. }
  split_and!.
  - apply decorate_layers.
  - apply layers_decorate.
  - exact Hcost.
  - rewrite Hcost. pose proof (increments_nonneg (layers c)). lra.
  - rewrite getCost_wrap.
    assert (Hl : (0 < increment l)%Q) by (by destruct l).
    lra.
Qed.

Lemma chars_append (s t : string) :
  String.list_ascii_of_string (s +:+ t)
  = String.list_ascii_of_string s ++ String.list_ascii_of_string t.
Proof.
  induction s as [|a s IH]; [done|].
  change (a :: String.list_ascii_of_string (s +:+ t)
          = a :: (String.list_ascii_of_string s ++ String.list_ascii_of_string t)).
  by rewrite IH.
Qed.

Lemma chars_inj (s t : string) :
  String.list_ascii_of_string s = String.list_ascii_of_string t → s = t.
Proof.
  intros H.
  rewrite <- (String.string_of_list_ascii_of_string s),
          <- (String.string_of_list_ascii_of_string t).
  by rewrite H.
Qed.

Lemma append_inv_tail (s1 s2 t : string) : s1 +:+ t = s2 +:+ t → s1 = s2.
Proof.
  intros H. apply chars_inj.
  apply (f_equal String.list_ascii_of_string) in H.
  rewrite !chars_append in H.
  by apply app_inv_tail in H.
Qed.

(** The last character of a description tells the outermost class. *)
Lemma description_ends (c : Coffee) :
  last (String.list_ascii_of_string (getDescription c))
  = Some match c with
         | PlainCoffee => "e"
         | MilkDecorator _ => "k"
         | SugarDecorator _ => "r"
         | CaramelDecorator _ => "l"
         end%char.
Proof.
  destruct c; [done|..]; cbn [getDescription];
    by rewrite chars_append, last_app.
Qed.

(** X9. The description tells the whole chain: two coffees with the same
    description are the same layers in the same nesting.  The cost does
    not: caramel over plain coffee costs what two layers of milk cost. *)
Theorem description_identifies_coffee :
  (∀ c1 c2 : Coffee, getDescription c1 = getDescription c2 → c1 = c2)
  ∧ CaramelDecorator PlainCoffee ≠ MilkDecorator (MilkDecorator PlainCoffee)
  ∧ getCost (CaramelDecorator PlainCoffee)
    = getCost (MilkDecorator (MilkDecorator PlainCoffee)).
Proof.
  split_and!; [|done|done].
  intros c1.
  induction c1 as [|c1 IH|c1 IH|c1 IH]; intros c2 H;
    pose proof (f_equal (λ s, last (String.list_ascii_of_string s)) H) as Hend;
    cbv beta in Hend; rewrite !description_ends in Hend;
    destruct c2; try discriminate Hend; clear Hend;
    [done|..];
    cbn [getDescription] in H; apply append_inv_tail in H;
    f_equal; by apply IH.
Qed.

Lemma description_identifies_coffee_witness :
  decorate [Milk; Sugar] PlainCoffee = SugarDecorator (MilkDecorator PlainCoffee).
Proof.
  apply (proj1 description_identifies_coffee). reflexivity.
Defined.

End DecoratorMore.

(** ** Factory: which name gives which shape *)

Section FactoryMore.
Import Factory.

(** X10. [createShape] gives a rectangle for the name "Rectangle" and for
    no other string, a square for "Square" and for no other string, and a
    circle for every string that is neither; what [draw] then prints is
    one line after the earlier output, and tells the shape.  The names are
    compared as they are: "square" gives a circle. *)
Theorem createShape_by_name (type : string) (out : Console) :
  (createShape type = Rectangle ↔ type = "Rectangle")
  ∧ (createShape type = Square ↔ type = "Square")
  ∧ (createShape type = Circle ↔ type ≠ "Rectangle" ∧ type ≠ "Square")
  ∧ (draw (createShape type) out = out ++ ["Drawing rectangle."]
     ↔ type = "Rectangle")
  ∧ (draw (createShape type) out = out ++ ["Drawing square."]
     ↔ type = "Square")
  ∧ length (draw (createShape type) out) = S (length out)
  ∧ createShape "square" = Circle.
Proof.
  unfold createShape.
  destruct (decide (type = "Circle")) as [->|HC];
    [|destruct (decide (type = "Rectangle")) as [->|HR];
      [|destruct (decide (type = "Square")) as [->|HS]]];
    simpl; unfold console_log; rewrite ?length_app; simpl;
    (split_and!; [..|lia|done]);
    try (split; [intros H|intros H]);
    try (apply app_inv_head in H); try done; try tauto;
    try (split; discriminate).
Qed.

Lemma createShape_by_name_witness :
  createShape "Rectangle" = Rectangle.
Proof.
  apply (createShape_by_name "Rectangle" []). reflexivity.
Defined.

End FactoryMore.

(** ** Abstract factory: one theme per application *)

Section AbstractFactoryFacts.
Import AbstractFactory.

(** X11. An application prints two lines when it renders, first its
    button's and then its text input's, after the earlier output, and both
    lines name the theme of the application's factory: products of two
    themes are never mixed.  The two lines tell the factory. *)
Theorem render_one_theme (app : Application) (out : Console) :
  render app out
  = out ++ ["Render " +:+ theme (factory app) +:+ " button";
            "Render " +:+ theme (factory app) +:+ " text input"]
  ∧ (∀ app' : Application, render app' out = render app out → app' = app).
Proof.
  split.
  - destruct app as [[]];
      cbv [render factory createButton createTextInput renderButton
           renderTextInput console_log];
      rewrite <- app_assoc; reflexivity.
  - intros [f'] Hsame. destruct app as [f].
    destruct f', f;
      cbv [render factory createButton createTextInput renderButton
           renderTextInput console_log] in Hsame;
      rewrite <- !app_assoc in Hsame; apply app_inv_head in Hsame;
      first [done | discriminate Hsame].
Qed.

Lemma render_one_theme_witness :
  {| factory := LightThemeFactory |} = {| factory := LightThemeFactory |}.
Proof.
  apply (render_one_theme {| factory := LightThemeFactory |} []). reflexivity.
Defined.

End AbstractFactoryFacts.

(** ** Builder: repeated setters, shared arrays, the director *)

Section BuilderMore.
Import Builder.

(** X12. Along any chain of setter calls on any builder the last call of a
    setter decides its field, a field whose setter is not called keeps its
    value, and the builder keeps the array it has. *)
Theorem last_setter_wins (cs : list Setter) (st : CustomPizzaBuilder * Arrays) :
  size (chain cs st).1 = default (size st.1) (last (sizesSet cs))
  ∧ crust (chain cs st).1 = default (crust st.1) (last (crustsSet cs))
  ∧ sauce (chain cs st).1 = default (sauce st.1) (last (saucesSet cs))
  ∧ toppings (chain cs st).1 = toppings st.1.
Proof.
  induction cs as [|c cs (IHsize & IHcrust & IHsauce & IHtop)] using rev_ind;
    [done|].
  rewrite chain_snoc.
  unfold sizesSet, crustsSet, saucesSet in *. rewrite !omap_app.
  destruct c; simpl; rewrite ?app_nil_r, ?last_snoc; simpl; done.
Qed.

(** X13. A pizza holds the builder's array, not a copy: a pizza built
    before a chain of calls reads, after the chain, its toppings followed
    by the toppings the chain added, which is what a pizza built after the
    chain reads. *)
Theorem built_pizza_shares_toppings (cs : list Setter) (b : CustomPizzaBuilder)
    (h : Arrays) :
  toppingsOf (build b) (chain cs (b, h)).2
  = (λ a, a ++ added cs) <$> toppingsOf (build b) h
  ∧ toppingsOf (build b) (chain cs (b, h)).2
    = toppingsOf (build (chain cs (b, h)).1) (chain cs (b, h)).2
  ∧ (∀ t : string,
       toppingsOf (build b) (addTopping t b h)
       = (λ a, a ++ [t]) <$> toppingsOf (build b) h).
Proof.
  unfold toppingsOf, build; simpl. split_and!.
  - apply (toppings_array_chain cs (b, h)).
  - by rewrite (toppings_chain cs (b, h)).
  - intros t. unfold addTopping. apply list_lookup_alter_eq.
Qed.

(** X14. Two builders never share toppings: a builder made after another
    holds a different array, which stays empty whatever is called on the
    first one, and the arrays that were there before the builders stay as
    they were. *)
Theorem builders_do_not_share (cs : list Setter) (h : Arrays) :
  let first := newCustomPizzaBuilder h in
  let second := newCustomPizzaBuilder first.2 in
  let st := chain cs (first.1, second.2) in
  toppings first.1 ≠ toppings second.1
  ∧ toppingsOf (build first.1) st.2 = Some (added cs)
  ∧ toppingsOf (build second.1) st.2 = Some []
  ∧ (∀ j : Ref, (j < length h)%nat → st.2 !! j = h !! j).
Proof.
  intros first second st. subst first second st.
  unfold toppingsOf, build, newCustomPizzaBuilder; simpl.
  rewrite length_app; simpl.
  set (b := {| size := "regular"; crust := "thin"; toppings := length h;
               sauce := "tomato" |}).
  pose proof (toppings_array_chain cs (b, (h ++ [[]]) ++ [[]])) as Hown.
  pose proof (other_arrays_chain cs (b, (h ++ [[]]) ++ [[]])) as Hother.
  simpl in Hown, Hother.
  split_and!.
  - lia.
  - rewrite Hown, lookup_app_l by (rewrite length_app; simpl; lia).
    by rewrite list_lookup_middle.
  - rewrite Hother by lia.
    rewrite list_lookup_middle by (rewrite length_app; simpl; lia). done.
  - intros j Hj. rewrite Hother by lia.
    by rewrite <- app_assoc, lookup_app_l.
Qed.

Lemma builders_do_not_share_witness :
  (chain driverCalls
     ((newCustomPizzaBuilder [["Basil"]]).1,
      (newCustomPizzaBuilder (newCustomPizzaBuilder [["Basil"]]).2).2)).2 !! 0%nat
  = Some ["Basil"].
Proof.
  apply (builders_do_not_share driverCalls [["Basil"]]). simpl. lia.
Defined.

End BuilderMore.

(** ** Builder: the director's pizzas *)

Section DirectorFacts.
Import Builder.

Lemma createMargherita_step (d : PizzaDirector) (h : Arrays) (a : list string) :
  h !! toppings (pizzaBuilder d) = Some a →
  Pizza.size (createMargherita d h).1 = "Large"
  ∧ Pizza.crust (createMargherita d h).1 = "Thin"
  ∧ Pizza.sauce (createMargherita d h).1 = "Marinara"
  ∧ Pizza.toppings (createMargherita d h).1 = toppings (pizzaBuilder d)
  ∧ toppings (pizzaBuilder (createMargherita d h).2.1) = toppings (pizzaBuilder d)
  ∧ (createMargherita d h).2.2 !! toppings (pizzaBuilder d)
    = Some (a ++ ["Cheese"; "Basil"]).
Proof.
  intros Ha. unfold createMargherita. cbn [fst snd].
  pose proof (toppings_array_chain margheritaCalls (pizzaBuilder d, h)) as Harr.
  cbn [fst snd] in Harr. rewrite Ha in Harr.
  split_and!; try reflexivity. exact Harr.
Qed.

Lemma createMargheritas_run (n : nat) :
  ∀ (d : PizzaDirector) (h : Arrays) (a : list string),
    h !! toppings (pizzaBuilder d) = Some a →
    length (createMargheritas n d h).1 = n
    ∧ Forall (λ p, Pizza.size p = "Large" ∧ Pizza.crust p = "Thin"
                   ∧ Pizza.sauce p = "Marinara"
                   ∧ Pizza.toppings p = toppings (pizzaBuilder d))
             (createMargheritas n d h).1
    ∧ (createMargheritas n d h).2.2 !! toppings (pizzaBuilder d)
      = Some (a ++ concat (replicate n ["Cheese"; "Basil"])).
Proof.
  induction n as [|n IH]; intros d h a Ha.
  - simpl. rewrite app_nil_r. auto.
  - cbn [createMargheritas].
    destruct (createMargherita_step d h a Ha)
      as (Hsize & Hcrust & Hsauce & Htop & Hkeep & Harr).
    destruct (createMargherita d h) as [p [d1 h1]].
    cbn [fst snd] in *.
    rewrite <- Hkeep in Harr.
    destruct (IH d1 h1 _ Harr) as (Hlen & Hall & Hfinal).
    destruct (createMargheritas n d1 h1) as [ps [d2 h2]].
    cbn [fst snd] in *.
    rewrite Hkeep in Hall, Hfinal.
    split_and!.
    + simpl. by rewrite Hlen.
    + constructor; [auto|exact Hall].
    + rewrite Hfinal. cbn [replicate concat].
      by rewrite <- !app_assoc.
Qed.

(** X15. A director makes all its pizzas with the one builder it has: the
    [n] pizzas of [n] calls of [createMargherita] are all Large, Thin and
    Marinara, and every one of them, the first included, ends up with the
    toppings Cheese, Basil [n] times over.  Only for [n = 1] is that the
    margherita's own two toppings. *)
Theorem createMargherita_accumulates (n : nat) (h : Arrays) :
  let made := createMargheritas n (newPizzaDirector h).1 (newPizzaDirector h).2 in
  length made.1 = n
  ∧ (∀ p : Pizza.Pizza, p ∈ made.1 →
       Pizza.size p = "Large" ∧ Pizza.crust p = "Thin"
       ∧ Pizza.sauce p = "Marinara"
       ∧ toppingsOf p made.2.2 = Some (concat (replicate n ["Cheese"; "Basil"]))).
Proof.
  intros made. subst made.
  destruct (createMargheritas_run n (newPizzaDirector h).1 (newPizzaDirector h).2 [])
    as (Hlen & Hall & Hfinal).
  { apply newCustomPizzaBuilder_array. }
  split; [exact Hlen|].
  intros p Hp.
  rewrite Forall_forall in Hall.
  destruct (Hall p Hp) as (Hsize & Hcrust & Hsauce & Htop).
  split_and!; try done.
  unfold toppingsOf. rewrite Htop. exact Hfinal.
Qed.

Lemma createMargherita_accumulates_witness :
  toppingsOf {| Pizza.size := "Large"; Pizza.crust := "Thin";
                Pizza.toppings := 0%nat; Pizza.sauce := "Marinara" |}
             (createMargheritas 2 (newPizzaDirector []).1
                                  (newPizzaDirector []).2).2.2
  = Some ["Cheese"; "Basil"; "Cheese"; "Basil"].
Proof.
  apply (proj2 (createMargherita_accumulates 2 [])).
  apply list_elem_of_here.
Defined.

End DirectorFacts.

(** ** Singleton: connecting *)

Section SingletonMore.
Import Singleton.

(** X16. Whatever the clock read at the later calls, [connect] on an
    instance that a run of [getInstance] calls returned prints the
    identifier made at the first call, and changes nothing else, so that
    [getInstance] goes on returning the same instance; [connect] on [null]
    fails. *)
Theorem connect_prints_first_id (t : Z) (ts : list Z) (r : option Ref) :
  let w := (getInstances (t :: ts) boot).2 in
  r ∈ (getInstances (t :: ts) boot).1 →
  connect r w
  = Some {| instance := instance w; lock := lock w; heap := heap w;
            out := out w ++ ["Connected to database with ID: " +:+ pretty t] |}
  ∧ (∀ w' : World, connect r w = Some w' →
       ∀ t' : Z, getInstance t' w' = (r, w'))
  ∧ connect None w = None.
Proof.
  intros w Hin. subst w.
  cbn [getInstances] in *. rewrite getInstance_boot in *.
  rewrite getInstances_initialised in * by (simpl; eauto).
  cbn [fst snd instance] in *.
  assert (Hr : r = Some 0%nat).
  { apply elem_of_cons in Hin as [Hin|Hin]; [done|].
    by apply elem_of_replicate in Hin as [Hin _]. }
  subst r. split_and!; try reflexivity.
  intros w' Hw' t'. simpl in Hw'. injection Hw' as <-. reflexivity.
Qed.

Lemma connect_prints_first_id_witness :
  out <$> connect (Some 0%nat) (getInstances [1000; 2000; 3000] boot).2
  = Some ["Connected to database with ID: 1000"].
Proof.
  assert (Hin : Some 0%nat ∈ (getInstances [1000; 2000; 3000] boot).1).
  { apply list_elem_of_here. }
  exact (f_equal (fmap out)
           (proj1 (connect_prints_first_id 1000 [2000; 3000] (Some 0%nat) Hin))).
Defined.

End SingletonMore.

(** ** Adapter: what the two adapters print *)

Section AdapterFacts.
Import Adapter.
Variable toString : number → string.

Lemma performAll_snoc (p : PaymentProcessor) (cs : list Payment) (c : Payment)
    (out : Console) :
  performAll toString p (cs ++ [c]) out
  = perform toString p c (performAll toString p cs out).
Proof. unfold performAll. by rewrite foldl_app. Qed.

(** X17. Through the modern adapter a refund prints the very line a
    payment of the same amount prints, so what a series of calls prints
    tells the amounts and nothing else; through the legacy adapter the two
    lines differ for every amount. *)
Theorem modern_refund_prints_as_payment (g : ModernPaymentGateway)
    (gl : LegacyPaymentGateway) (amount : number) (out : Console) :
  refundPayment toString (ModernPaymentAdapter g) amount out
  = processPayment toString (ModernPaymentAdapter g) amount out
  ∧ (∀ cs : list Payment,
       performAll toString (ModernPaymentAdapter g) cs out
       = out ++ map (λ c, "Processing Modern payment : " +:+ toString (amountOf c)) cs)
  ∧ refundPayment toString (LegacyPaymentAdapter gl) amount out
    ≠ processPayment toString (LegacyPaymentAdapter gl) amount out.
Proof.
  split_and!.
  - reflexivity.
  - intros cs. induction cs as [|c cs IH] using rev_ind.
    + simpl. by rewrite app_nil_r.
    + rewrite performAll_snoc, IH, map_app, app_assoc.
      by destruct c.
  - cbv [refundPayment processPayment cancelPayment makePayment console_log].
    intros Hsame. apply app_inv_head in Hsame. discriminate Hsame.
Qed.

End AdapterFacts.

(** ** Facade: what a series of calls prints *)

Section FacadeFacts.
Import Facade.
Variable toString : number → string.

Lemma perform_three_lines (f : HomeAutomationFacade) (c : FacadeCall)
    (out : Console) :
  ∃ l1 l2 l3 : string,
    perform toString f c out = out ++ [l1; l2; l3]
    ∧ volumeLine l1 = false ∧ volumeLine l2 = false ∧ volumeLine l3 = false.
Proof.
  destruct c;
    cbv [perform turnOn turnOff setMovieMode Lights.turnOn Lights.turnOff
         Lights.dim MusicSystem.turnOn MusicSystem.turnOff MusicSystem.play
         AirConditioner.turnOn AirConditioner.turnOff
         AirConditioner.setTemperature console_log];
    do 3 eexists; rewrite <- !app_assoc; (split; [reflexivity|]);
    split_and!; reflexivity.
Qed.

Lemma facade_performAll_snoc (f : HomeAutomationFacade) (cs : list FacadeCall)
    (c : FacadeCall) (out : Console) :
  performAll toString f (cs ++ [c]) out
  = perform toString f c (performAll toString f cs out).
Proof. unfold performAll. by rewrite foldl_app. Qed.

(** X18. Every call on the facade prints three lines after what was
    printed before, whatever was called earlier: a series of calls keeps
    the earlier output and adds three lines per call, and none of them is
    a line of [MusicSystem.setVolume], which the facade never calls. *)
Theorem facade_prints_three_lines_per_call (f : HomeAutomationFacade)
    (cs : list FacadeCall) (out : Console) :
  ∃ printed : list string,
    performAll toString f cs out = out ++ printed
    ∧ length printed = (3 * length cs)%nat
    ∧ Forall (λ line, volumeLine line = false) printed.
Proof.
  induction cs as [|c cs (printed & Hout & Hlen & Hnone)] using rev_ind.
  - exists []. simpl. by rewrite app_nil_r.
  - rewrite facade_performAll_snoc, Hout.
    destruct (perform_three_lines f c (out ++ printed))
      as (l1 & l2 & l3 & Hc & H1 & H2 & H3).
    exists (printed ++ [l1; l2; l3]). split_and!.
    + by rewrite Hc, app_assoc.
    + rewrite !length_app, Hlen. simpl. lia.
    + apply Forall_app. split; [done|]. by repeat constructor.
Qed.

End FacadeFacts.
